(** * pycollocation.solvers: the [Solver] base class

    A shallow embedding of [src/pycollocation/solvers.py] and the properties
    of it that the specification states.

    Python objects are modelled as follows.
    - A [dict] is an association list in insertion order whose keys are
      pairwise distinct; keys are identifiers (Python [str]).
    - A raised exception is the [Raise] case of [res]; code that also mutates
      an object runs in the state monad [M], which keeps the mutations made
      before an exception was raised.
    - numpy values, sympy expressions and [sym.lambdify] are external: they
      are the fields of the class [Numerics].
    - [_basis_function_factory] and [_basis_derivative_factory] are the
      methods a subclass overrides: they are the fields of [BasisFamily]. *)

From Stdlib Require Import String Ascii ZArith Bool Lia.
From Stdlib Require Import List Sorted Permutation OrderedTypeEx.
Import ListNotations.
Local Open Scope string_scope.
Local Open Scope list_scope.
Local Open Scope Z_scope.

(** ** Exceptions *)

Inductive exn : Type :=
| AttributeError
| AssertionError
| KeyError
| ValueError
| TypeError
| NotImplementedError.

Inductive res (A : Type) : Type :=
| Ok (a : A)
| Raise (e : exn).
Arguments Ok {A} a.
Arguments Raise {A} e.

Definition res_bind {A B} (r : res A) (k : A -> res B) : res B :=
  match r with
  | Ok a => k a
  | Raise e => Raise e
  end.

Declare Scope res_scope.
Delimit Scope res_scope with res.
Notation "'let*' x ':=' r 'in' k" := (res_bind r (fun x => k))
  (at level 10, x name, r at level 100, k at level 200) : res_scope.

(** ** Dictionaries *)

Definition symbol := string.

Definition dict (A : Type) := list (symbol * A).

Definition keys {A} (d : dict A) : list symbol := map fst d.
Definition values {A} (d : dict A) : list A := map snd d.
Definition items {A} (d : dict A) : list (symbol * A) := d.

(** [d.get(k)] *)
Fixpoint dict_get {A} (d : dict A) (k : symbol) : option A :=
  match d with
  | [] => None
  | (k', v) :: d' => if String.eqb k k' then Some v else dict_get d' k
  end.

(** [d[k]] *)
Definition dict_getitem {A} (d : dict A) (k : symbol) : res A :=
  match dict_get d k with
  | Some v => Ok v
  | None => Raise KeyError
  end.

(** [d[k] = v]: an existing key keeps its place, a new key goes last. *)
Fixpoint dict_set {A} (d : dict A) (k : symbol) (v : A) : dict A :=
  match d with
  | [] => [(k, v)]
  | (k', v') :: d' =>
      if String.eqb k k' then (k, v) :: d' else (k', v') :: dict_set d' k v
  end.

(** A Python dict never holds a key twice. *)
Definition wf_dict {A} (d : dict A) : Prop := NoDup (keys d).

(** A decision procedure for it. *)
Fixpoint distinct (l : list symbol) : bool :=
  match l with
  | [] => true
  | k :: l' => negb (existsb (String.eqb k) l') && distinct l'
  end.

(** [d1 == d2] on dicts: the same keys with the same values, in any order. *)
Definition dict_equal {A} (d1 d2 : dict A) : Prop :=
  forall k, dict_get d1 k = dict_get d2 k.

(** ** Slices of a one-dimensional array *)

(** The position a slice bound [i] denotes in a sequence of length [len]:
    a negative bound counts from the end, and bounds are clipped. *)
Definition slice_bound (i : Z) (len : nat) : nat :=
  if i <? 0 then Z.to_nat (Z.max 0 (i + Z.of_nat len))
  else Nat.min (Z.to_nat i) len.

(** [a[:stop]] *)
Definition slice_to {A} (a : list A) (stop : Z) : list A :=
  firstn (slice_bound stop (length a)) a.

(** [a[start:]] *)
Definition slice_from {A} (a : list A) (start : Z) : list A :=
  skipn (slice_bound start (length a)) a.

(** [np.hstack(arrays)] on one-dimensional arrays; numpy refuses an empty
    sequence of arrays. *)
Definition hstack {A} (arrays : list (list A)) : res (list A) :=
  match arrays with
  | [] => Raise ValueError
  | _ => Ok (concat arrays)
  end.

(** [sum(xs)] *)
Definition sum (xs : list Z) : Z := fold_left Z.add xs 0.

(** ** Coefficient codec *)

(** The [for var, degree in degrees.items()] loop of
    [_coefs_array_to_dict]. *)
Fixpoint split_coefs {A} (degrees : list (symbol * Z)) (coefs_array : list A)
    (coefs_dict : dict (list A)) : dict (list A) :=
  match degrees with
  | [] => coefs_dict
  | (var, degree) :: rest =>
      split_coefs rest (slice_from coefs_array (degree + 1))
        (dict_set coefs_dict var (slice_to coefs_array (degree + 1)))
  end.

Definition _coefs_array_to_dict {A} (coefs_array : list A) (degrees : dict Z)
    : res (dict (list A)) :=
  let precondition :=
    Z.of_nat (length coefs_array)
      =? sum (values degrees) + Z.of_nat (length degrees) in
  if negb precondition then Raise AssertionError
  else
    let coefs_dict := split_coefs (items degrees) coefs_array [] in
    let postcondition := Nat.eqb (length coefs_dict) (length degrees) in
    if negb postcondition then Raise AssertionError
    else Ok coefs_dict.

(** The [for var in self.model.dependent_vars] loop of
    [_coefs_dict_to_array]. *)
Fixpoint collect_coefs {A} (dependent_vars : list symbol)
    (coefs_dict : dict (list A)) : res (list (list A)) :=
  match dependent_vars with
  | [] => Ok []
  | var :: rest =>
      (let* coef_array := dict_getitem coefs_dict var in
       let* coefs_list := collect_coefs rest coefs_dict in
       Ok (coef_array :: coefs_list))%res
  end.

(** [_coefs_dict_to_array]; [dependent_vars] is what the method reads from
    [self.model.dependent_vars]. *)
Definition _coefs_dict_to_array {A} (dependent_vars : list symbol)
    (coefs_dict : dict (list A)) : res (list A) :=
  (let* coefs_list := collect_coefs dependent_vars coefs_dict in
   hstack coefs_list)%res.

(** ** External capabilities *)

(** What the solver consumes from numpy and sympy.  [V] is the type of the
    values that flow through compiled callables (numpy scalars and arrays, and
    whatever else a params dict holds); [Expr] is the type of sympy
    expressions; [lambdify args expr] is
    [sym.lambdify(args, expr, modules)], a callable that binds its positional
    arguments to [args] in order; [sub a b] is [a - b]. *)
Class Numerics : Type := {
  V : Type;
  Expr : Type;
  lambdify : list symbol -> Expr -> list V -> res V;
  sub : V -> V -> res V
}.

(** A compiled expression, called as [f(t, *args)]. *)
Definition callable `{Numerics} : Type := list V -> res V.

(** A basis function or basis derivative, called as [f(points)]. *)
Definition ufunc `{Numerics} : Type := V -> res V.

(** The two class methods that the base class leaves to its subclasses. *)
Class BasisFamily `{Numerics} : Type := {
  _basis_function_factory : list V -> string -> V * V -> res ufunc;
  _basis_derivative_factory : list V -> string -> V * V -> res ufunc
}.

Section SolverClass.

Context `{N : Numerics}.

(** ** The model descriptor *)

(** Modelled from the spec: the module [models] and its class
    [SymbolicModel] are not among the sources.  The spec's Model Descriptor
    exposes the independent-variable id, the ordered dependent-variable ids,
    a mapping variable -> right-hand-side expression and a mapping
    {lower, upper} -> optional boundary-condition expression. *)
Record BoundaryConditions : Type := {
  lower : option Expr;
  upper : option Expr
}.

Record SymbolicModel : Type := {
  independent_var : symbol;
  dependent_vars : list symbol;
  rhs : dict Expr;
  boundary_conditions : BoundaryConditions
}.

(** The objects a caller may hand to [Solver]: what [isinstance] tells apart. *)
Inductive PyObj : Type :=
| PyDict (d : dict V)
| PyModel (m : SymbolicModel)
| PyOther (cls : string).

(** The [optimize.Result] stored by a solve: [Result_x] is its attribute [x]. *)
Record Result : Type := {
  Result_x : list V;
  Result_success : bool
}.

(** ** Instances and the class attribute *)

(** The attributes of one [Solver] instance.  [None] in [_result],
    [degrees], [kind] and [domain] stands for an attribute that has not been
    set; the two name-mangled fields start from the class attribute [None]. *)
Record Solver : Type := {
  _model : SymbolicModel;
  _params : dict V;
  _Solver__lower_boundary_condition : option callable;
  _Solver__upper_boundary_condition : option callable;
  _result : option Result;
  degrees : option (dict Z);
  kind : option string;
  domain : option (V * V)
}.

(** The instance a method runs on, the class attribute
    [Solver._cached_rhs_functions] that every instance shares, and the log of
    the calls made to [sym.lambdify]. *)
Record State : Type := {
  self : Solver;
  _cached_rhs_functions : dict callable;
  lambdify_calls : list (list symbol * Expr)
}.

Definition M (A : Type) : Type := State -> res A * State.

Definition ret {A} (a : A) : M A := fun st => (Ok a, st).

Definition bind {A B} (m : M A) (k : A -> M B) : M B :=
  fun st =>
    match m st with
    | (Ok a, st') => k a st'
    | (Raise e, st') => (Raise e, st')
    end.

Definition lift {A} (r : res A) : M A := fun st => (r, st).

Definition get_self : M Solver := fun st => (Ok (self st), st).

Definition set_self (s : Solver) : M unit :=
  fun st =>
    (Ok tt, {| self := s;
               _cached_rhs_functions := _cached_rhs_functions st;
               lambdify_calls := lambdify_calls st |}).

Definition get_cache : M (dict callable) :=
  fun st => (Ok (_cached_rhs_functions st), st).

Definition set_cache (c : dict callable) : M unit :=
  fun st =>
    (Ok tt, {| self := self st;
               _cached_rhs_functions := c;
               lambdify_calls := lambdify_calls st |}).

Definition log_lambdify (args : list symbol) (expr : Expr) : M unit :=
  fun st =>
    (Ok tt, {| self := self st;
               _cached_rhs_functions := _cached_rhs_functions st;
               lambdify_calls := lambdify_calls st ++ [(args, expr)] |}).

End SolverClass.

Declare Scope M_scope.
Delimit Scope M_scope with M.
Notation "x <- m ;; k" := (bind m (fun x => k))
  (at level 61, m at next level, right associativity) : M_scope.
Notation "m ;;; k" := (bind m (fun _ => k))
  (at level 61, right associativity) : M_scope.

Section SolverMethods.

Context `{N : Numerics}.
Local Open Scope M_scope.

(** ** Validation and canonical parameter order *)

Definition _validate_model (model : PyObj) : res SymbolicModel :=
  match model with
  | PyModel m => Ok m
  | _ => Raise AttributeError
  end.

Definition _validate_params (value : PyObj) : res (dict V) :=
  match value with
  | PyDict d => Ok d
  | _ => Raise AttributeError
  end.

(** [sorted(pairs)] on the items of a dict.  Tuples compare by their first
    component where these differ, and the keys of a dict always differ;
    [str] compares by code point. *)
Fixpoint insert_item {A} (kv : symbol * A) (l : list (symbol * A))
    : list (symbol * A) :=
  match l with
  | [] => [kv]
  | kv' :: l' =>
      if String.leb (fst kv) (fst kv') then kv :: l
      else kv' :: insert_item kv l'
  end.

Fixpoint sorted {A} (l : list (symbol * A)) : list (symbol * A) :=
  match l with
  | [] => []
  | kv :: l' => insert_item kv (sorted l')
  end.

(** [collections.OrderedDict(pairs)] *)
Definition OrderedDict {A} (pairs : list (symbol * A)) : dict A :=
  fold_left (fun d kv => dict_set d (fst kv) (snd kv)) pairs [].

Definition _order_params {A} (params : dict A) : dict A :=
  OrderedDict (sorted (items params)).

(** ** Properties of an instance *)

Definition model (s : Solver) : SymbolicModel := _model s.

Definition params (s : Solver) : dict V := _params s.

Definition _symbolic_params (s : Solver) : list symbol := keys (params s).

Definition _symbolic_vars (s : Solver) : list symbol :=
  [independent_var (model s)] ++ dependent_vars (model s).

Definition _symbolic_args (s : Solver) : list symbol :=
  _symbolic_vars s ++ _symbolic_params s.

Definition result (s : Solver) : res Result :=
  match _result s with
  | Some r => Ok r
  | None => Raise AttributeError
  end.

(** Reading an attribute that a subclass or a solve is expected to set. *)
Definition getattr {A} (a : option A) : res A :=
  match a with
  | Some v => Ok v
  | None => Raise AttributeError
  end.

Definition coefficients (s : Solver) : res (dict (list V)) :=
  (let* r := result s in
   let* d := getattr (degrees s) in
   _coefs_array_to_dict (Result_x r) d)%res.

(** ** Setters and the constructor *)

Definition set_model (s : Solver) (m : SymbolicModel) : Solver :=
  {| _model := m;
     _params := _params s;
     _Solver__lower_boundary_condition := _Solver__lower_boundary_condition s;
     _Solver__upper_boundary_condition := _Solver__upper_boundary_condition s;
     _result := _result s;
     degrees := degrees s;
     kind := kind s;
     domain := domain s |}.

Definition set_params (s : Solver) (p : dict V) : Solver :=
  {| _model := _model s;
     _params := p;
     _Solver__lower_boundary_condition := _Solver__lower_boundary_condition s;
     _Solver__upper_boundary_condition := _Solver__upper_boundary_condition s;
     _result := _result s;
     degrees := degrees s;
     kind := kind s;
     domain := domain s |}.

Definition set_lower (s : Solver) (f : option callable) : Solver :=
  {| _model := _model s;
     _params := _params s;
     _Solver__lower_boundary_condition := f;
     _Solver__upper_boundary_condition := _Solver__upper_boundary_condition s;
     _result := _result s;
     degrees := degrees s;
     kind := kind s;
     domain := domain s |}.

Definition set_upper (s : Solver) (f : option callable) : Solver :=
  {| _model := _model s;
     _params := _params s;
     _Solver__lower_boundary_condition := _Solver__lower_boundary_condition s;
     _Solver__upper_boundary_condition := f;
     _result := _result s;
     degrees := degrees s;
     kind := kind s;
     domain := domain s |}.

Definition set_result (s : Solver) (r : Result) : Solver :=
  {| _model := _model s;
     _params := _params s;
     _Solver__lower_boundary_condition := _Solver__lower_boundary_condition s;
     _Solver__upper_boundary_condition := _Solver__upper_boundary_condition s;
     _result := Some r;
     degrees := degrees s;
     kind := kind s;
     domain := domain s |}.

(** [self.model = model] *)
Definition model_setter (model : PyObj) : M unit :=
  m <- lift (_validate_model model) ;;
  s <- get_self ;;
  set_self (set_model s m).

(** [self.params = value] *)
Definition params_setter (value : PyObj) : M unit :=
  valid_params <- lift (_validate_params value) ;;
  s <- get_self ;;
  set_self (set_params s (_order_params valid_params)).

(** [Solver(model, params)]: the two assignments of [__init__] on a new
    instance, which has no attribute of its own yet. *)
Definition __init__ (model params : PyObj) : res Solver :=
  (let* m := _validate_model model in
   let* valid_params := _validate_params params in
   Ok {| _model := m;
         _params := _order_params valid_params;
         _Solver__lower_boundary_condition := None;
         _Solver__upper_boundary_condition := None;
         _result := None;
         degrees := None;
         kind := None;
         domain := None |})%res.

(** ** Compiling expressions *)

(** [sym.lambdify(self._symbolic_args, expr, self._modules)], logged when it
    is called.  The call is taken to return a callable: symbol lists and
    expressions that sympy refuses are outside the model. *)
Definition _lambdify_factory (expr : Expr) : M callable :=
  s <- get_self ;;
  log_lambdify (_symbolic_args s) expr ;;;
  ret (lambdify (_symbolic_args s) expr).

Definition _lower_boundary_condition : M (option callable) :=
  s <- get_self ;;
  match lower (boundary_conditions (model s)) with
  | Some condition =>
      match _Solver__lower_boundary_condition s with
      | None =>
          f <- _lambdify_factory condition ;;
          s' <- get_self ;;
          set_self (set_lower s' (Some f))
      | Some _ => ret tt
      end ;;;
      s' <- get_self ;;
      ret (_Solver__lower_boundary_condition s')
  | None => ret None
  end.

Definition _upper_boundary_condition : M (option callable) :=
  s <- get_self ;;
  match upper (boundary_conditions (model s)) with
  | Some condition =>
      match _Solver__upper_boundary_condition s with
      | None =>
          f <- _lambdify_factory condition ;;
          s' <- get_self ;;
          set_self (set_upper s' (Some f))
      | Some _ => ret tt
      end ;;;
      s' <- get_self ;;
      ret (_Solver__upper_boundary_condition s')
  | None => ret None
  end.

Definition _rhs_functions (var : symbol) : M callable :=
  c <- get_cache ;;
  match dict_get c var with
  | None =>
      s <- get_self ;;
      eqn <- lift (dict_getitem (rhs (model s)) var) ;;
      f <- _lambdify_factory eqn ;;
      c' <- get_cache ;;
      set_cache (dict_set c' var f)
  | Some _ => ret tt
  end ;;;
  c' <- get_cache ;;
  lift (dict_getitem c' var).

(** ** Evaluating basis functions and residuals *)

(** [[basis_funcs[var](points) for var in dependent_vars]] *)
Fixpoint eval_funcs (vars : list symbol) (funcs : dict ufunc) (points : V)
    : res (list V) :=
  match vars with
  | [] => Ok []
  | var :: rest =>
      (let* f := dict_getitem funcs var in
       let* y := f points in
       let* ys := eval_funcs rest funcs points in
       Ok (y :: ys))%res
  end.

Definition _evaluate_basis_funcs (s : Solver) (basis_funcs : dict ufunc)
    (points : V) : res (list V) :=
  eval_funcs (dependent_vars (model s)) basis_funcs points.

(** Calling what a boundary property returned: [None] is not callable. *)
Definition call (f : option callable) (args : list V) : res V :=
  match f with
  | Some g => g args
  | None => Raise TypeError
  end.

Definition _evaluate_lower_boundary_residual (basis_funcs : dict ufunc)
    (lower_bound : V) : M (option V) :=
  c <- _lower_boundary_condition ;;
  match c with
  | Some _ =>
      s <- get_self ;;
      vals <- lift (_evaluate_basis_funcs s basis_funcs lower_bound) ;;
      let args := vals ++ values (params s) in
      f <- _lower_boundary_condition ;;
      r <- lift (call f (lower_bound :: args)) ;;
      ret (Some r)
  | None => ret None
  end.

Definition _evaluate_upper_boundary_residual (basis_funcs : dict ufunc)
    (upper_bound : V) : M (option V) :=
  c <- _upper_boundary_condition ;;
  match c with
  | Some _ =>
      s <- get_self ;;
      vals <- lift (_evaluate_basis_funcs s basis_funcs upper_bound) ;;
      let args := vals ++ values (params s) in
      f <- _upper_boundary_condition ;;
      r <- lift (call f (upper_bound :: args)) ;;
      ret (Some r)
  | None => ret None
  end.

(** [residuals.append(r)] under [if r is not None] *)
Definition append_if_not_None {A} (residuals : list A) (r : option A)
    : list A :=
  match r with
  | Some v => residuals ++ [v]
  | None => residuals
  end.

Definition _evaluate_boundary_residuals (basis_funcs : dict ufunc)
    (domain : V * V) : M (list V) :=
  lower_residual <- _evaluate_lower_boundary_residual basis_funcs (fst domain) ;;
  upper_residual <- _evaluate_upper_boundary_residual basis_funcs (snd domain) ;;
  let residuals := [] in
  let residuals := append_if_not_None residuals lower_residual in
  let residuals := append_if_not_None residuals upper_residual in
  ret residuals.

(** The closure [residual_function] that [_residual_function_factory]
    returns; it reads [self] when it is called. *)
Definition _residual_function_factory (var : symbol)
    (basis_derivs basis_funcs : dict ufunc) : V -> M V :=
  fun t =>
    s <- get_self ;;
    vals <- lift (_evaluate_basis_funcs s basis_funcs t) ;;
    let args := vals ++ values (params s) in
    deriv <- lift (dict_getitem basis_derivs var) ;;
    d <- lift (deriv t) ;;
    f <- _rhs_functions var ;;
    y <- lift (f (t :: args)) ;;
    lift (sub d y).

Definition _construct_residual_funcs (basis_derivs basis_funcs : dict ufunc)
    : dict (V -> M V) :=
  fold_left
    (fun residual_funcs item =>
       dict_set residual_funcs (fst item)
         (_residual_function_factory (fst item) basis_derivs basis_funcs))
    (items basis_derivs) [].

(** [[residual_funcs[var](nodes[var]) for var in dependent_vars]] *)
Fixpoint eval_residual_funcs (vars : list symbol)
    (residual_funcs : dict (V -> M V)) (nodes : dict V) : M (list V) :=
  match vars with
  | [] => ret []
  | var :: rest =>
      f <- lift (dict_getitem residual_funcs var) ;;
      t <- lift (dict_getitem nodes var) ;;
      y <- f t ;;
      ys <- eval_residual_funcs rest residual_funcs nodes ;;
      ret (y :: ys)
  end.

Definition _evaluate_residual_funcs (residual_funcs : dict (V -> M V))
    (nodes : dict V) : M (list V) :=
  s <- get_self ;;
  eval_residual_funcs (dependent_vars (model s)) residual_funcs nodes.

End SolverMethods.

Section BasisMethods.

Context {N : Numerics} {B : BasisFamily}.
Local Open Scope M_scope.

(** The loop shared by [_construct_basis_funcs] and
    [_construct_basis_derivs]: [basis[var] = factory(coef, *args)] for every
    item of [coefs]. *)
Fixpoint construct_basis (factory : list V -> string -> V * V -> res ufunc)
    (coefs : list (symbol * list V)) (kind : string) (domain : V * V)
    (basis : dict ufunc) : res (dict ufunc) :=
  match coefs with
  | [] => Ok basis
  | (var, coef) :: rest =>
      (let* f := factory coef kind domain in
       construct_basis factory rest kind domain (dict_set basis var f))%res
  end.

Definition _construct_basis_funcs (coefs : dict (list V)) (kind : string)
    (domain : V * V) : res (dict ufunc) :=
  construct_basis _basis_function_factory (items coefs) kind domain [].

Definition _construct_basis_derivs (coefs : dict (list V)) (kind : string)
    (domain : V * V) : res (dict ufunc) :=
  construct_basis _basis_derivative_factory (items coefs) kind domain [].

Definition derivatives (s : Solver) : res (dict ufunc) :=
  (let* coefs := coefficients s in
   let* k := getattr (kind s) in
   let* d := getattr (domain s) in
   _construct_basis_derivs coefs k d)%res.

Definition functions (s : Solver) : res (dict ufunc) :=
  (let* coefs := coefficients s in
   let* k := getattr (kind s) in
   let* d := getattr (domain s) in
   _construct_basis_funcs coefs k d)%res.

Definition residual_functions (s : Solver) : res (dict (V -> M V)) :=
  (let* basis_derivs := derivatives s in
   let* basis_funcs := functions s in
   Ok (_construct_residual_funcs basis_derivs basis_funcs))%res.

(** ** The solve orchestration *)

(** A deterministic external nonlinear solver, seen from its caller: it
    either stops with a coefficient vector and a success flag, or asks for
    the residual vector at a coefficient vector and goes on from the
    answer. *)
Inductive Strategy : Type :=
| Finish (x : list V) (success : bool)
| Evaluate (x : list V) (k : list V -> Strategy).

Fixpoint run_strategy (residual : list V -> M (list V)) (s : Strategy)
    : M Result :=
  match s with
  | Finish x success => ret {| Result_x := x; Result_success := success |}
  | Evaluate x k => r <- residual x ;; run_strategy residual (k r)
  end.

(** Modelled from the spec: the subclass that assembles the residual vector
    is not among the sources.  The full residual vector is every variable's
    interior residual evaluated at the collocation nodes, followed by the
    boundary residuals, as a function of the coefficient array. *)
Definition residual_vector (kind : string) (domain : V * V)
    (degrees : dict Z) (nodes : dict V) (coefs_array : list V)
    : M (list V) :=
  coefs <- lift (_coefs_array_to_dict coefs_array degrees) ;;
  basis_derivs <- lift (_construct_basis_derivs coefs kind domain) ;;
  basis_funcs <- lift (_construct_basis_funcs coefs kind domain) ;;
  let residual_funcs := _construct_residual_funcs basis_derivs basis_funcs in
  interior <- _evaluate_residual_funcs residual_funcs nodes ;;
  boundary <- _evaluate_boundary_residuals basis_funcs domain ;;
  ret (interior ++ boundary).

(** Modelled from the spec: the method [solve] is not among the sources.
    It hands the residual vector and the initial coefficients to the
    external solver once, stores the Result on the instance and returns
    it. *)
Definition solve (external : list V -> Strategy) (kind : string)
    (domain : V * V) (degrees : dict Z) (nodes : dict V)
    (initial_coefs : list V) : M Result :=
  r <- run_strategy (residual_vector kind domain degrees nodes)
         (external initial_coefs) ;;
  s <- get_self ;;
  set_self (set_result s r) ;;;
  ret r.

End BasisMethods.

(** ** A backend over the integers

    Values are integers or strings, expressions are polynomial terms over
    named symbols, and a compiled expression binds its positional arguments
    to the symbols it was compiled for.  The definitions above can be run on
    it. *)

Inductive zvalue : Type :=
| Num (z : Z)
| Str (s : string).

Inductive zexpr : Type :=
| Sym (name : symbol)
| Const (z : Z)
| Add (a b : zexpr)
| Sub (a b : zexpr)
| Mul (a b : zexpr).

Definition zbinop (op : Z -> Z -> Z) (a b : res zvalue) : res zvalue :=
  match a, b with
  | Ok (Num x), Ok (Num y) => Ok (Num (op x y))
  | Raise e, _ => Raise e
  | _, Raise e => Raise e
  | _, _ => Raise TypeError
  end.

Fixpoint zeval (env : list (symbol * zvalue)) (e : zexpr) : res zvalue :=
  match e with
  | Sym name => dict_getitem env name
  | Const z => Ok (Num z)
  | Add a b => zbinop Z.add (zeval env a) (zeval env b)
  | Sub a b => zbinop Z.sub (zeval env a) (zeval env b)
  | Mul a b => zbinop Z.mul (zeval env a) (zeval env b)
  end.

Definition zlambdify (args : list symbol) (e : zexpr) (actual : list zvalue)
    : res zvalue :=
  if Nat.eqb (length args) (length actual) then zeval (combine args actual) e
  else Raise TypeError.

Definition zsub (a b : zvalue) : res zvalue := zbinop Z.sub (Ok a) (Ok b).

#[export] Instance Z_numerics : Numerics := {
  V := zvalue;
  Expr := zexpr;
  lambdify := zlambdify;
  sub := zsub
}.

Definition znumeric (v : zvalue) : bool :=
  match v with
  | Num _ => true
  | Str _ => false
  end.

(** Monomial expansions: [c0 + c1*t + c2*t^2 + ...] and its derivative. *)
Fixpoint zpoly (coefs : list zvalue) (t : zvalue) : res zvalue :=
  match coefs with
  | [] => Ok (Num 0)
  | c :: cs => zbinop Z.add (Ok c) (zbinop Z.mul (Ok t) (zpoly cs t))
  end.

Fixpoint zscale (i : Z) (coefs : list zvalue) : list zvalue :=
  match coefs with
  | [] => []
  | Num c :: cs => Num (i * c) :: zscale (i + 1) cs
  | Str s :: cs => Str s :: zscale (i + 1) cs
  end.

Definition zderiv (coefs : list zvalue) : list zvalue := zscale 1 (tl coefs).

#[export] Instance Z_monomials : BasisFamily := {
  _basis_function_factory := fun coef _ _ => Ok (zpoly coef);
  _basis_derivative_factory := fun coef _ _ => Ok (zpoly (zderiv coef))
}.

(** The base class itself: both factories raise [NotImplementedError]. *)
Definition base_class `{Numerics} : BasisFamily := {|
  _basis_function_factory := fun _ _ _ => Raise NotImplementedError;
  _basis_derivative_factory := fun _ _ _ => Raise NotImplementedError
|}.

(** ** Predicates used in the statements *)

Section Predicates.

Context `{N : Numerics}.

(** [isinstance(model, models.SymbolicModel)] *)
Definition isinstance_SymbolicModel (o : PyObj) : bool :=
  match o with
  | PyModel _ => true
  | _ => false
  end.

(** [isinstance(value, dict)] *)
Definition isinstance_dict (o : PyObj) : bool :=
  match o with
  | PyDict _ => true
  | _ => false
  end.

(** A key -> numeric mapping, in the words of the specification: a dict all
    of whose values are numeric. *)
Definition key_numeric_mapping (numeric : V -> bool) (o : PyObj) : bool :=
  match o with
  | PyDict d => forallb numeric (values d)
  | _ => false
  end.

(** Ascending order on keys, and on items by their keys. *)
Definition key_lt (k1 k2 : symbol) : Prop := String.ltb k1 k2 = true.

Definition key_le (k1 k2 : symbol) : Prop := String.leb k1 k2 = true.

Definition item_le {A} (kv1 kv2 : symbol * A) : Prop :=
  key_le (fst kv1) (fst kv2).

(** The state in which a method of instance [s] starts, given the class
    attribute [cache] and the log [calls]. *)
Definition on_instance (s : Solver) (cache : dict callable)
    (calls : list (list symbol * Expr)) : State :=
  {| self := s; _cached_rhs_functions := cache; lambdify_calls := calls |}.

(** A freshly started process: nothing compiled yet. *)
Definition fresh (s : Solver) : State := on_instance s [] [].

(** The coefficient mapping [coefs] matches [degrees]: the two have the same
    number of entries and every variable of [degrees] has a slice of length
    [degree + 1]. *)
Definition conforms {A} (coefs : dict (list A)) (degrees : dict Z) : bool :=
  Nat.eqb (length coefs) (length degrees)
  && forallb
       (fun item =>
          match dict_get coefs (fst item) with
          | Some slice => Z.of_nat (length slice) =? snd item + 1
          | None => false
          end)
       degrees.

(** The size the specification asks of a coefficient array: the sum over all
    variables of [degree + 1]. *)
Definition expected_size (degrees : dict Z) : Z :=
  fold_right (fun item acc => snd item + 1 + acc) 0 degrees.

(** The slices [_coefs_array_to_dict] cuts, in the order of [degrees]. *)
Fixpoint chunks {A} (degrees : list (symbol * Z)) (coefs_array : list A)
    : dict (list A) :=
  match degrees with
  | [] => []
  | (var, degree) :: rest =>
      (var, slice_to coefs_array (degree + 1))
        :: chunks rest (slice_from coefs_array (degree + 1))
  end.

(** The slice of [item]'s variable in [coefs], of the length its degree
    asks for. *)
Definition slice_of {A} (coefs : dict (list A)) (item : symbol * Z)
    (slice : list A) : Prop :=
  dict_get coefs (fst item) = Some slice
  /\ Z.of_nat (length slice) = snd item + 1.

(** To the flat array and back. *)
Definition roundtrip {A} (dependent_vars : list symbol) (degrees : dict Z)
    (coefs : dict (list A)) : res (dict (list A)) :=
  (let* coefs_array := _coefs_dict_to_array dependent_vars coefs in
   _coefs_array_to_dict coefs_array degrees)%res.

(** The number of sides of the domain that carry a boundary condition. *)
Definition defined_sides (m : SymbolicModel) : nat :=
  (match lower (boundary_conditions m) with Some _ => 1 | None => 0 end
   + match upper (boundary_conditions m) with Some _ => 1 | None => 0 end)%nat.

(** The callable a boundary property hands out: the one already stored on
    the instance, or else the expression compiled now. *)
Definition boundary_callable (s : Solver) (stored : option callable)
    (condition : Expr) : callable :=
  match stored with
  | Some f => f
  | None => lambdify (_symbolic_args s) condition
  end.

(** The instance once a boundary property has been read: the callable is
    stored on it if the model has a condition on that side. *)
Definition memoize_lower (s : Solver) : Solver :=
  match lower (boundary_conditions (model s)) with
  | Some c =>
      set_lower s
        (Some (boundary_callable s (_Solver__lower_boundary_condition s) c))
  | None => s
  end.

Definition memoize_upper (s : Solver) : Solver :=
  match upper (boundary_conditions (model s)) with
  | Some c =>
      set_upper s
        (Some (boundary_callable s (_Solver__upper_boundary_condition s) c))
  | None => s
  end.

(** The compile log once a boundary property has been read: one more call
    if the condition had to be compiled. *)
Definition compile_log (s : Solver) (condition : option Expr)
    (stored : option callable) (calls : list (list symbol * Expr))
    : list (list symbol * Expr) :=
  match condition, stored with
  | Some c, None => calls ++ [(_symbolic_args s, c)]
  | _, _ => calls
  end.

(** The entry a side contributes to the boundary residuals. *)
Definition side_entry {A} (condition : option Expr) (r : A) : list A :=
  match condition with
  | Some _ => [r]
  | None => []
  end.

(** What evaluating a boundary residual returns on instance [s]: [None]
    without a condition on that side, else the side's callable at the bound,
    the basis values there and the parameter values. *)
Definition lower_outcome (s : Solver) (basis_funcs : dict ufunc)
    (lower_bound : V) : res (option V) :=
  match lower (boundary_conditions (model s)) with
  | Some c =>
      (let* vals := _evaluate_basis_funcs s basis_funcs lower_bound in
       let* r :=
         boundary_callable s (_Solver__lower_boundary_condition s) c
           (lower_bound :: vals ++ values (params s)) in
       Ok (Some r))%res
  | None => Ok None
  end.

Definition upper_outcome (s : Solver) (basis_funcs : dict ufunc)
    (upper_bound : V) : res (option V) :=
  match upper (boundary_conditions (model s)) with
  | Some c =>
      (let* vals := _evaluate_basis_funcs s basis_funcs upper_bound in
       let* r :=
         boundary_callable s (_Solver__upper_boundary_condition s) c
           (upper_bound :: vals ++ values (params s)) in
       Ok (Some r))%res
  | None => Ok None
  end.

(** What building a dict of basis functions with [factory] comes to: on
    success one entry per variable of [coefs], made by [factory] from that
    variable's coefficients; on failure the error of a call to [factory] on
    one of the entries. *)
Definition basis_built (factory : list V -> string -> V * V -> res ufunc)
    (coefs : dict (list V)) (kind : string) (domain : V * V)
    (outcome : res (dict ufunc)) : Prop :=
  match outcome with
  | Ok basis =>
      keys basis = keys coefs
      /\ forall var coef,
           dict_get coefs var = Some coef ->
           exists f,
             factory coef kind domain = Ok f /\ dict_get basis var = Some f
  | Raise e =>
      exists var coef,
        In (var, coef) coefs /\ factory coef kind domain = Raise e
  end.

(** A computation that leaves the instance as it is and never removes or
    replaces an entry of the shared cache. *)
Definition keeps {A} (m : M A) : Prop :=
  forall st,
    self (snd (m st)) = self st
    /\ forall var f,
         dict_get (_cached_rhs_functions st) var = Some f ->
         dict_get (_cached_rhs_functions (snd (m st))) var = Some f.

(** The callables in effect on an instance and a shared cache: what the
    boundary properties and [_rhs_functions] hand out.  For a side with a
    condition it is the callable stored on the instance or else the condition
    compiled now; for a name it is the callable the cache holds or else the
    model's right-hand side compiled now. *)
Definition lower_in_effect (s : Solver) : option callable :=
  option_map (boundary_callable s (_Solver__lower_boundary_condition s))
    (lower (boundary_conditions (model s))).

Definition upper_in_effect (s : Solver) : option callable :=
  option_map (boundary_callable s (_Solver__upper_boundary_condition s))
    (upper (boundary_conditions (model s))).

Definition rhs_in_effect (s : Solver) (cache : dict callable) (var : symbol)
    : option callable :=
  match dict_get cache var with
  | Some f => Some f
  | None =>
      option_map (lambdify (_symbolic_args s)) (dict_get (rhs (model s)) var)
  end.

(** Two instances with the same model, the same params and the same boundary
    callables in effect. *)
Definition same_instance_view (s1 s2 : Solver) : Prop :=
  model s1 = model s2
  /\ params s1 = params s2
  /\ lower_in_effect s1 = lower_in_effect s2
  /\ upper_in_effect s1 = upper_in_effect s2.

(** Two states in which a solve meets the same model, the same params and
    the same callables in effect, for both sides of the domain and for every
    dependent variable of the model. *)
Definition same_callables (st1 st2 : State) : Prop :=
  same_instance_view (self st1) (self st2)
  /\ forall var,
       In var (dependent_vars (model (self st1))) ->
       rhs_in_effect (self st1) (_cached_rhs_functions st1) var
       = rhs_in_effect (self st2) (_cached_rhs_functions st2) var.

(** A computation whose outcome is the same in two such states. *)
Definition determined {A} (m : M A) : Prop :=
  forall st1 st2, same_callables st1 st2 -> fst (m st1) = fst (m st2).

(** A computation that leaves the callables in effect as they are. *)
Definition settles {A} (m : M A) : Prop :=
  forall st, same_callables st (snd (m st)).

End Predicates.

(** ** Instances of the integer backend used to run the definitions *)

Definition heat_model : SymbolicModel := {|
  independent_var := "A";
  dependent_vars := ["T1"; "T2"];
  rhs := [("T1", Mul (Sub (Sym "T2") (Sym "T1")) (Sym "U"));
          ("T2", Mul (Const 2) (Mul (Sub (Sym "T2") (Sym "T1")) (Sym "U")))];
  boundary_conditions :=
    {| lower := Some (Sub (Sym "T1") (Sym "T10"));
       upper := Some (Sub (Sym "T2") (Sym "T2Ahx")) |}
|}.

Definition heat_params : dict zvalue :=
  [("U", Num 1); ("T10", Num 130); ("T2Ahx", Num 70)].

(** A second model that reuses the variable names of [heat_model] with other
    right-hand sides and no upper boundary condition. *)
Definition other_model : SymbolicModel := {|
  independent_var := "A";
  dependent_vars := ["T1"; "T2"];
  rhs := [("T1", Const 0); ("T2", Sym "T1")];
  boundary_conditions :=
    {| lower := Some (Sub (Sym "T1") (Sym "T10")); upper := None |}
|}.

Definition make_solver (m : SymbolicModel) (p : dict zvalue) : Solver := {|
  _model := m;
  _params := _order_params p;
  _Solver__lower_boundary_condition := None;
  _Solver__upper_boundary_condition := None;
  _result := None;
  degrees := None;
  kind := None;
  domain := None
|}.

Definition heat_solver : Solver := make_solver heat_model heat_params.

Definition other_solver : Solver := make_solver other_model heat_params.

Definition heat_degrees : dict Z := [("T1", 1); ("T2", 0)].

Definition heat_coefs : dict (list zvalue) :=
  [("T1", [Num 100; Num 3]); ("T2", [Num 90])].

Definition heat_funcs : dict ufunc :=
  [("T1", zpoly [Num 100; Num 3]); ("T2", zpoly [Num 90])].


Definition heat_nodes : dict zvalue := [("T1", Num 2); ("T2", Num 3)].

(** Objects handed to the validators: the params dict, a dict with a value
    that is not a number, and a list. *)
Definition heat_params_dict : @PyObj Z_numerics := @PyDict Z_numerics heat_params.

Definition words_dict : @PyObj Z_numerics :=
  @PyDict Z_numerics [("U", Str "fast")].

Definition a_list : @PyObj Z_numerics := PyOther "list".

(** [heat_solver] as a subclass leaves it after a solve: a result stored,
    and degrees, kind and domain set. *)
Definition heat_result : Result :=
  {| Result_x := [Num 100; Num 3; Num 90]; Result_success := true |}.

Definition solved_solver : Solver := {|
  _model := heat_model;
  _params := _order_params heat_params;
  _Solver__lower_boundary_condition := None;
  _Solver__upper_boundary_condition := None;
  _result := Some heat_result;
  degrees := Some heat_degrees;
  kind := Some "Polynomial";
  domain := Some (Num 0, Num 5)
|}.

(** A model with the variables of [heat_model] and another lower boundary
    condition. *)
Definition cooled_model : SymbolicModel := {|
  independent_var := "A";
  dependent_vars := ["T1"; "T2"];
  rhs := rhs heat_model;
  boundary_conditions :=
    {| lower := Some (Sub (Sym "T1") (Const 0)); upper := None |}
|}.

(** The params of [heat_params] entered in another order. *)
Definition heat_params_reordered : dict zvalue :=
  [("T2Ahx", Num 70); ("U", Num 1); ("T10", Num 130)].

(** The degrees of [heat_degrees] listed in the other order. *)
Definition swapped_degrees : dict Z := [("T2", 0); ("T1", 1)].

Definition heat_initial : list zvalue := [Num 100; Num 3; Num 90].

(** An external solver that asks for the residual vector once, at the
    initial guess, and returns it as its answer. *)
Definition one_step (x0 : list zvalue) : Strategy :=
  Evaluate x0 (fun r => Finish r true).

(** One solve of the integer backend, from state [st]. *)
Definition heat_solve (st : State) : res Result * State :=
  solve one_step "Polynomial" (Num 0, Num 5) heat_degrees heat_nodes
    heat_initial st.

(** The state in which [heat_solver] starts in a process that has solved
    [other_model] before. *)
Definition after_other_model : State :=
  on_instance heat_solver
    (_cached_rhs_functions (snd (heat_solve (fresh other_solver))))
    (lambdify_calls (snd (heat_solve (fresh other_solver)))).

(** * Properties *)

(** ** Validation *)

Section Validation.

Context {N : Numerics} {B : BasisFamily}.

Lemma isinstance_dict_true (value : PyObj) :
  isinstance_dict value = true <-> exists d, value = PyDict d.
Proof.
  destruct value; simpl; split; intros H; try discriminate; eauto;
    destruct H as [d' H]; discriminate.
Qed.

Lemma validate_model_rejects (model : PyObj) :
  isinstance_SymbolicModel model = false ->
  _validate_model model = Raise AttributeError.
Proof. destruct model; simpl; intros H; congruence. Qed.

Lemma validate_params_rejects (value : PyObj) :
  isinstance_dict value = false ->
  _validate_params value = Raise AttributeError.
Proof. destruct value; simpl; intros H; congruence. Qed.

(** C7.  A model candidate that is not a [SymbolicModel] (a plain dict, for
    one) and a params value that is not a dict are refused with the
    configuration error ([AttributeError]) by the validators; the setters and
    the constructor pass the error on at once, leaving the instance, the
    shared cache and the compile log as they were. *)
Theorem validation_fails_fast (model value : PyObj) (st : State) :
  isinstance_SymbolicModel model = false ->
  isinstance_dict value = false ->
  _validate_model model = Raise AttributeError
  /\ _validate_params value = Raise AttributeError
  /\ (forall d, _validate_model (PyDict d) = Raise AttributeError)
  /\ model_setter model st = (Raise AttributeError, st)
  /\ params_setter value st = (Raise AttributeError, st)
  /\ (forall params, __init__ model params = Raise AttributeError)
  /\ (forall m, __init__ (PyModel m) value = Raise AttributeError).
Proof.
  intros Hm Hv.
  pose proof (validate_model_rejects model Hm) as Em.
  pose proof (validate_params_rejects value Hv) as Ev.
  repeat split; auto.
  - unfold model_setter, bind, lift. now rewrite Em.
  - unfold params_setter, bind, lift. now rewrite Ev.
  - intros params0. unfold __init__. now rewrite Em.
  - intros m. unfold __init__. simpl. now rewrite Ev.
Qed.

(** C8, as the code has it.  [_validate_params] accepts a value exactly when
    it is a dict, whatever its values are: the dict is returned as it is, so
    every key -> numeric mapping is accepted, and every value that is not a
    dict is refused with [AttributeError]. *)
Theorem validate_params_accepts_dicts (value : PyObj) :
  ((exists d, _validate_params value = Ok d) <-> isinstance_dict value = true)
  /\ (_validate_params value = Raise AttributeError
      <-> isinstance_dict value = false)
  /\ (forall d, value = PyDict d -> _validate_params value = Ok d)
  /\ (forall numeric,
        key_numeric_mapping numeric value = true ->
        exists d, value = PyDict d /\ _validate_params value = Ok d).
Proof.
  destruct value as [d | m | cls]; simpl; repeat split;
    try discriminate; try congruence; eauto.
  all: try (intros [d' H]; discriminate).
  all: try (intros d' H; congruence).
Qed.

(** C10.  After [Solver(model, params)] and before a solve has stored a
    Result, reading [result] raises [AttributeError], and so do
    [coefficients], [derivatives], [functions] and [residual_functions],
    which read it first; assigning a model or params does not change
    this. *)
Theorem result_unset_before_solve (model0 params0 : PyObj) (s : Solver) :
  __init__ model0 params0 = Ok s ->
  result s = Raise AttributeError
  /\ coefficients s = Raise AttributeError
  /\ derivatives s = Raise AttributeError
  /\ functions s = Raise AttributeError
  /\ (forall st, self st = s ->
        match residual_functions (self st) with
        | Raise e => e = AttributeError
        | Ok _ => False
        end)
  /\ (forall value st, self st = s ->
        result (self (snd (params_setter value st))) = Raise AttributeError)
  /\ (forall value st, self st = s ->
        result (self (snd (model_setter value st))) = Raise AttributeError).
Proof.
  intros Hinit.
  assert (Hres : _result s = None).
  { unfold __init__ in Hinit.
    destruct (_validate_model model0); simpl in Hinit; try discriminate.
    destruct (_validate_params params0); simpl in Hinit; try discriminate.
    injection Hinit as <-. reflexivity. }
  assert (R : result s = Raise AttributeError)
    by (unfold result; now rewrite Hres).
  assert (C : coefficients s = Raise AttributeError)
    by (unfold coefficients; now rewrite R).
  assert (D : derivatives s = Raise AttributeError)
    by (unfold derivatives; now rewrite C).
  repeat split; auto.
  - unfold functions. now rewrite C.
  - intros st ->. unfold residual_functions. now rewrite D.
  - intros value st <-. unfold params_setter, bind, lift, get_self, set_self.
    destruct (_validate_params value); simpl; unfold result; simpl.
    + destruct (_result (self st)) eqn:E; [discriminate | reflexivity].
    + now rewrite Hres.
  - intros value st <-. unfold model_setter, bind, lift, get_self, set_self.
    destruct (_validate_model value); simpl; unfold result; simpl;
      now rewrite Hres.
Qed.

End Validation.

(** ** Dictionaries *)

Section DictFacts.

Context {A : Type}.
Implicit Types (d : dict A) (k : symbol) (v : A).

Lemma distinct_NoDup (l : list symbol) : distinct l = true -> NoDup l.
Proof.
  induction l as [| k l IH]; simpl; intros H; constructor.
  - apply andb_prop in H. destruct H as [H _].
    intros I. apply negb_true_iff in H.
    assert (E : existsb (String.eqb k) l = true).
    { apply existsb_exists. exists k. split; [exact I | apply String.eqb_refl]. }
    congruence.
  - apply IH. apply andb_prop in H. tauto.
Qed.

Lemma dict_get_None d k : dict_get d k = None <-> ~ In k (keys d).
Proof.
  induction d as [| [k' v'] d IH]; simpl.
  - tauto.
  - destruct (String.eqb_spec k k') as [-> | Hne].
    + split; [discriminate | intros H; exfalso; apply H; now left].
    + rewrite IH. split; intros H; [intros [E | I]; congruence | tauto].
Qed.

Lemma dict_get_Some_In d k v : dict_get d k = Some v -> In (k, v) d.
Proof.
  induction d as [| [k' v'] d IH]; simpl; [discriminate |].
  destruct (String.eqb_spec k k') as [-> | Hne].
  - intros [= ->]. now left.
  - intros H. right. auto.
Qed.

Lemma In_keys d k v : In (k, v) d -> In k (keys d).
Proof. intros H. apply (in_map fst) in H. exact H. Qed.

Lemma dict_get_In d k v : wf_dict d -> In (k, v) d -> dict_get d k = Some v.
Proof.
  unfold wf_dict.
  induction d as [| [k' v'] d IH]; simpl; [tauto |].
  intros Hnd [E | I].
  - injection E as -> ->. now rewrite String.eqb_refl.
  - inversion Hnd as [| ? ? Hnotin Hnd']; subst.
    destruct (String.eqb_spec k k') as [-> | Hne].
    + exfalso. apply Hnotin. eapply In_keys; eauto.
    + auto.
Qed.

Lemma dict_set_fresh d k v :
  ~ In k (keys d) -> dict_set d k v = d ++ [(k, v)].
Proof.
  induction d as [| [k' v'] d IH]; simpl; [reflexivity |].
  intros H. destruct (String.eqb_spec k k') as [-> | Hne].
  - exfalso. apply H. now left.
  - rewrite IH; [reflexivity | tauto].
Qed.

Lemma keys_app d1 d2 : keys (d1 ++ d2) = keys d1 ++ keys d2.
Proof. unfold keys. apply map_app. Qed.

Lemma dict_get_app_fresh d1 d2 k :
  ~ In k (keys d1) -> dict_get (d1 ++ d2) k = dict_get d2 k.
Proof.
  induction d1 as [| [k' v'] d1 IH]; simpl; [reflexivity |].
  intros H. destruct (String.eqb_spec k k') as [-> | Hne]; [tauto |].
  apply IH. tauto.
Qed.

(** Building a dict from pairs with distinct keys keeps the pairs as they
    are. *)
Lemma fold_dict_set_distinct (pairs : list (symbol * A)) d :
  NoDup (keys d ++ keys pairs) ->
  fold_left (fun acc kv => dict_set acc (fst kv) (snd kv)) pairs d
  = d ++ pairs.
Proof.
  revert d. induction pairs as [| [k v] pairs IH]; intros d Hnd; simpl.
  - now rewrite app_nil_r.
  - rewrite dict_set_fresh.
    + rewrite IH.
      * now rewrite <- app_assoc.
      * rewrite keys_app. simpl. rewrite <- app_assoc. exact Hnd.
    + simpl in Hnd. apply NoDup_remove_2 in Hnd.
      intros I. apply Hnd. apply in_or_app. now left.
Qed.

Lemma OrderedDict_distinct (pairs : list (symbol * A)) :
  NoDup (keys pairs) -> OrderedDict pairs = pairs.
Proof. intros H. unfold OrderedDict. now rewrite fold_dict_set_distinct. Qed.

End DictFacts.

(** ** Coefficient codec *)

Section Codec.

Context {A : Type}.
Implicit Types (a : list A) (degrees : dict Z) (coefs : dict (list A)).

Lemma sum_from (xs : list Z) (z : Z) :
  fold_left Z.add xs z = z + fold_left Z.add xs 0.
Proof.
  revert z. induction xs as [| x xs IH]; intros z; simpl; [lia |].
  rewrite IH, (IH x). lia.
Qed.

(** The size [_coefs_array_to_dict] compares with is the specified one. *)
Lemma precondition_size degrees :
  sum (values degrees) + Z.of_nat (length degrees) = expected_size degrees.
Proof.
  unfold sum. induction degrees as [| [var degree] degrees IH]; simpl.
  - reflexivity.
  - rewrite sum_from. simpl in IH. lia.
Qed.

Lemma keys_chunks degrees a : keys (chunks degrees a) = keys degrees.
Proof.
  revert a. induction degrees as [| [var degree] degrees IH]; intros a;
    simpl; [reflexivity | now rewrite IH].
Qed.

Lemma length_chunks degrees a : length (chunks degrees a) = length degrees.
Proof.
  revert a. induction degrees as [| [var degree] degrees IH]; intros a;
    simpl; [reflexivity | now rewrite IH].
Qed.

(** On a dict of degrees the loop appends one slice per variable. *)
Lemma split_coefs_chunks degrees a coefs :
  NoDup (keys coefs ++ keys degrees) ->
  split_coefs degrees a coefs = coefs ++ chunks degrees a.
Proof.
  revert a coefs.
  induction degrees as [| [var degree] degrees IH]; intros a coefs Hnd; simpl.
  - now rewrite app_nil_r.
  - rewrite dict_set_fresh.
    + rewrite IH.
      * now rewrite <- app_assoc.
      * rewrite keys_app. simpl. rewrite <- app_assoc. exact Hnd.
    + simpl in Hnd. apply NoDup_remove_2 in Hnd.
      intros I. apply Hnd. apply in_or_app. now left.
Qed.

Lemma coefs_array_to_dict_chunks a degrees :
  wf_dict degrees ->
  _coefs_array_to_dict a degrees
  = if Z.of_nat (length a) =? expected_size degrees
    then Ok (chunks degrees a) else Raise AssertionError.
Proof.
  intros Hwf. unfold _coefs_array_to_dict, items.
  rewrite precondition_size.
  destruct (Z.of_nat (length a) =? expected_size degrees); simpl;
    [| reflexivity].
  rewrite split_coefs_chunks by exact Hwf. simpl.
  rewrite length_chunks, Nat.eqb_refl. reflexivity.
Qed.

Lemma slice_to_length a (n : Z) :
  0 <= n <= Z.of_nat (length a) -> Z.of_nat (length (slice_to a n)) = n.
Proof.
  intros H. unfold slice_to, slice_bound.
  destruct (n <? 0) eqn:E; [apply Z.ltb_lt in E; lia |].
  rewrite length_firstn. lia.
Qed.

Lemma slice_from_length a (n : Z) :
  0 <= n <= Z.of_nat (length a) ->
  Z.of_nat (length (slice_from a n)) = Z.of_nat (length a) - n.
Proof.
  intros H. unfold slice_from, slice_bound.
  destruct (n <? 0) eqn:E; [apply Z.ltb_lt in E; lia |].
  rewrite length_skipn. lia.
Qed.

Lemma expected_size_nonneg degrees :
  (forall var degree, In (var, degree) degrees -> 0 <= degree) ->
  0 <= expected_size degrees.
Proof.
  induction degrees as [| [var degree] degrees IH]; simpl; intros H; [lia |].
  assert (0 <= degree) by (eapply H; now left).
  assert (0 <= expected_size degrees) by (apply IH; intros; eapply H; eauto).
  lia.
Qed.

(** With non-negative degrees and an array of the expected size, every slice
    has [degree + 1] elements. *)
Lemma chunks_sizes degrees a :
  (forall var degree, In (var, degree) degrees -> 0 <= degree) ->
  Z.of_nat (length a) = expected_size degrees ->
  forall var degree, In (var, degree) degrees ->
  exists slice, In (var, slice) (chunks degrees a)
                /\ Z.of_nat (length slice) = degree + 1.
Proof.
  revert a.
  induction degrees as [| [var0 degree0] degrees IH]; intros a Hpos Hlen var
    degree Hin; simpl in *; [tauto |].
  assert (H0 : 0 <= degree0) by (eapply Hpos; now left).
  assert (Hrest : 0 <= expected_size degrees)
    by (apply expected_size_nonneg; intros; eapply Hpos; eauto).
  destruct Hin as [E | Hin].
  - injection E as -> ->. eexists. split; [now left |].
    apply slice_to_length. lia.
  - destruct (IH (slice_from a (degree0 + 1))) with (var := var)
      (degree := degree) as [slice [I L]]; auto.
    + intros; eapply Hpos; eauto.
    + rewrite slice_from_length; lia.
    + exists slice. split; [now right | exact L].
Qed.

(** C4.  On a dict of degrees, [_coefs_array_to_dict] raises the shape error
    ([AssertionError]) exactly when the size of the flat array differs from
    the sum over all variables of [degree + 1]; when the sizes agree it
    returns a mapping with exactly the variables of [degrees], one entry
    each, and with non-negative degrees the entry of [v] has
    [degree[v] + 1] elements. *)
Theorem coefs_array_to_dict_shape a degrees :
  wf_dict degrees ->
  (_coefs_array_to_dict a degrees = Raise AssertionError
   <-> Z.of_nat (length a) <> expected_size degrees)
  /\ (Z.of_nat (length a) = expected_size degrees ->
      exists coefs,
        _coefs_array_to_dict a degrees = Ok coefs
        /\ keys coefs = keys degrees
        /\ wf_dict coefs
        /\ length coefs = length degrees
        /\ ((forall var degree, In (var, degree) degrees -> 0 <= degree) ->
            forall var degree,
              dict_get degrees var = Some degree ->
              exists slice,
                dict_get coefs var = Some slice
                /\ Z.of_nat (length slice) = degree + 1)).
Proof.
  intros Hwf. rewrite coefs_array_to_dict_chunks by exact Hwf.
  destruct (Z.eqb_spec (Z.of_nat (length a)) (expected_size degrees))
    as [E | NE].
  - split; [split; [discriminate | tauto] |].
    intros _. exists (chunks degrees a).
    assert (Hwf' : wf_dict (chunks degrees a))
      by (unfold wf_dict; now rewrite keys_chunks).
    repeat split; auto using keys_chunks, length_chunks.
    intros Hpos var degree Hget.
    destruct (chunks_sizes degrees a Hpos E var degree) as [slice [I L]].
    + now apply dict_get_Some_In.
    + exists slice. split; [now apply dict_get_In | exact L].
  - split; [tauto | intros E; contradiction].
Qed.

End Codec.

Section Roundtrip.

Context {A : Type}.
Implicit Types (degrees : dict Z) (coefs : dict (list A)).

Lemma conforms_collect degrees coefs :
  forallb
    (fun item =>
       match dict_get coefs (fst item) with
       | Some slice => Z.of_nat (length slice) =? snd item + 1
       | None => false
       end) degrees = true ->
  exists slices,
    collect_coefs (keys degrees) coefs = Ok slices
    /\ Forall2 (slice_of coefs) degrees slices.
Proof.
  induction degrees as [| [var degree] degrees IH]; simpl; intros H.
  - exists []. split; [reflexivity | constructor].
  - apply andb_prop in H. destruct H as [Hhd Htl].
    destruct (IH Htl) as [slices [Hc Hf]].
    unfold dict_getitem.
    destruct (dict_get coefs var) as [slice |] eqn:E; [| discriminate].
    exists (slice :: slices). simpl. rewrite Hc. simpl.
    split; [reflexivity |].
    constructor; [| exact Hf].
    split; simpl; [exact E | now apply Z.eqb_eq].
Qed.

Lemma slice_to_app (l r : list A) (n : Z) :
  Z.of_nat (length l) = n -> slice_to (l ++ r) n = l.
Proof.
  intros <-. unfold slice_to, slice_bound.
  destruct (Z.of_nat (length l) <? 0) eqn:E; [apply Z.ltb_lt in E; lia |].
  rewrite Nat2Z.id, length_app, Nat.min_l by lia.
  rewrite firstn_app, Nat.sub_diag, firstn_all. simpl. apply app_nil_r.
Qed.

Lemma slice_from_app (l r : list A) (n : Z) :
  Z.of_nat (length l) = n -> slice_from (l ++ r) n = r.
Proof.
  intros <-. unfold slice_from, slice_bound.
  destruct (Z.of_nat (length l) <? 0) eqn:E; [apply Z.ltb_lt in E; lia |].
  rewrite Nat2Z.id, length_app, Nat.min_l by lia.
  rewrite skipn_app, Nat.sub_diag, skipn_all. reflexivity.
Qed.

(** Cutting the concatenation of the slices gives the slices back. *)
Lemma chunks_concat degrees coefs (slices : list (list A)) :
  Forall2 (slice_of coefs) degrees slices ->
  chunks degrees (concat slices) = combine (keys degrees) slices
  /\ Z.of_nat (length (concat slices)) = expected_size degrees.
Proof.
  induction 1 as [| [var degree] slice degrees slices [Hget Hlen] Hrest IH];
    simpl in *.
  - split; reflexivity.
  - destruct IH as [IHc IHl].
    rewrite slice_to_app, slice_from_app by exact Hlen.
    rewrite IHc, length_app. split; [reflexivity | lia].
Qed.

Lemma combine_lookup degrees coefs (slices : list (list A)) k :
  Forall2 (slice_of coefs) degrees slices ->
  (In k (keys degrees) ->
   dict_get (combine (keys degrees) slices) k = dict_get coefs k)
  /\ (~ In k (keys degrees) ->
      dict_get (combine (keys degrees) slices) k = None).
Proof.
  induction 1 as [| [var degree] slice degrees slices [Hget Hlen] Hrest IH];
    simpl in *.
  - split; [tauto | reflexivity].
  - destruct (String.eqb_spec k var) as [-> | Hne].
    + split; [intros _; now rewrite Hget | intros H; exfalso; apply H; now left].
    + destruct IH as [IH1 IH2]. split.
      * intros [E | I]; [congruence | auto].
      * intros H. apply IH2. tauto.
Qed.

Lemma slices_incl degrees coefs (slices : list (list A)) :
  Forall2 (slice_of coefs) degrees slices ->
  incl (keys degrees) (keys coefs).
Proof.
  induction 1 as [| [var degree] slice degrees slices [Hget Hlen] Hrest IH];
    simpl in *; intros k I; [contradiction |].
  destruct I as [<- | I]; [| now apply IH].
  apply dict_get_Some_In in Hget. eapply In_keys; eauto.
Qed.

(** C3, as the code has it.  When the degrees mapping lists its variables in
    the model's dependent-variable order, there is at least one variable, and
    the coefficient mapping has exactly the variables of [degrees], each with
    a slice of [degree + 1] elements, then [_coefs_dict_to_array] followed by
    [_coefs_array_to_dict] returns a mapping equal to the original: the same
    keys with equal values. *)
Theorem roundtrip_in_model_order (dependent_vars : list symbol) degrees coefs :
  wf_dict degrees ->
  conforms coefs degrees = true ->
  keys degrees = dependent_vars ->
  dependent_vars <> [] ->
  exists coefs',
    roundtrip dependent_vars degrees coefs = Ok coefs'
    /\ dict_equal coefs' coefs
    /\ keys coefs' = keys degrees.
Proof.
  intros Hwf Hconf <- Hne.
  unfold conforms in Hconf. apply andb_prop in Hconf.
  destruct Hconf as [Hlen Hall]. apply Nat.eqb_eq in Hlen.
  destruct (conforms_collect degrees coefs Hall) as [slices [Hc Hf]].
  destruct (chunks_concat degrees coefs slices Hf) as [Hchunks Hsize].
  exists (combine (keys degrees) slices).
  assert (Hslices : slices <> []).
  { intros ->. inversion Hf; subst. now apply Hne. }
  split; [| split].
  - unfold roundtrip, _coefs_dict_to_array. rewrite Hc. simpl.
    destruct slices as [| slice slices]; [congruence |].
    unfold hstack, res_bind.
    rewrite coefs_array_to_dict_chunks by exact Hwf.
    rewrite Hsize, Z.eqb_refl, Hchunks. reflexivity.
  - intros k. destruct (combine_lookup degrees coefs slices k Hf) as [L1 L2].
    destruct (in_dec string_dec k (keys degrees)) as [I | NI]; [auto |].
    rewrite (L2 NI). symmetry. apply dict_get_None.
    intros I. apply NI.
    apply (NoDup_length_incl (l := keys degrees) (l' := keys coefs)); auto.
    + unfold keys. rewrite !length_map. lia.
    + eapply slices_incl; eauto.
  - rewrite <- Hchunks. apply keys_chunks.
Qed.

End Roundtrip.

(** ** Canonical parameter order *)

Section KeyOrder.

Lemma key_lt_lts k1 k2 : key_lt k1 k2 <-> String_as_OT.lt k1 k2.
Proof.
  unfold key_lt, String.ltb. rewrite <- String_as_OT.cmp_lt.
  unfold String_as_OT.cmp.
  destruct (String.compare k1 k2); split; congruence.
Qed.

Lemma key_le_cases k1 k2 : key_le k1 k2 <-> k1 = k2 \/ key_lt k1 k2.
Proof.
  unfold key_le, key_lt, String.leb, String.ltb.
  destruct (String.compare k1 k2) eqn:E; split; intros H; auto.
  - left. now apply String_as_OT.cmp_eq.
  - destruct H as [-> | H]; [| discriminate].
    assert (E' : String.compare k2 k2 = Eq) by now apply String_as_OT.cmp_eq.
    congruence.
Qed.

Lemma key_lt_trans k1 k2 k3 : key_lt k1 k2 -> key_lt k2 k3 -> key_lt k1 k3.
Proof. rewrite !key_lt_lts. apply String_as_OT.lt_trans. Qed.

Lemma key_le_trans k1 k2 k3 : key_le k1 k2 -> key_le k2 k3 -> key_le k1 k3.
Proof.
  rewrite !key_le_cases.
  intros [-> | H12] [-> | H23]; auto.
  right. eapply key_lt_trans; eauto.
Qed.

Lemma key_le_total k1 k2 : String.leb k1 k2 = false -> key_le k2 k1.
Proof.
  intros H. destruct (String.leb_total k1 k2) as [T | T]; [congruence | exact T].
Qed.

End KeyOrder.

Section OrderParams.

Context {A : Type}.
Implicit Types (l d : list (symbol * A)) (kv : symbol * A).

Lemma insert_item_perm kv l : Permutation (insert_item kv l) (kv :: l).
Proof.
  induction l as [| kv' l IH]; simpl; [reflexivity |].
  destruct (String.leb (fst kv) (fst kv')); [reflexivity |].
  rewrite IH. apply perm_swap.
Qed.

Lemma sorted_perm l : Permutation (sorted l) l.
Proof.
  induction l as [| kv l IH]; simpl; [reflexivity |].
  rewrite insert_item_perm. now constructor.
Qed.

Lemma insert_item_HdRel kv kv0 l :
  item_le kv0 kv -> HdRel item_le kv0 l -> HdRel item_le kv0 (insert_item kv l).
Proof.
  intros H0 Hl. destruct l as [| kv' l]; simpl.
  - now constructor.
  - destruct (String.leb (fst kv) (fst kv')); constructor; auto.
    now inversion Hl.
Qed.

Lemma insert_item_Sorted kv l :
  Sorted item_le l -> Sorted item_le (insert_item kv l).
Proof.
  induction 1 as [| kv' l Hs IH Hhd]; simpl.
  - repeat constructor.
  - destruct (String.leb (fst kv) (fst kv')) eqn:E.
    + constructor; [now constructor | now constructor].
    + constructor; [exact IH |].
      apply insert_item_HdRel; [| exact Hhd].
      now apply key_le_total.
Qed.

Lemma sorted_Sorted l : Sorted item_le (sorted l).
Proof.
  induction l as [| kv l IH]; simpl; [constructor |].
  now apply insert_item_Sorted.
Qed.

Lemma item_le_trans : Relations_1.Transitive (@item_le A).
Proof. intros x y z. unfold item_le. apply key_le_trans. Qed.

(** Sorted items with distinct keys have strictly ascending keys. *)
Lemma ascending_keys l :
  StronglySorted item_le l -> NoDup (keys l) -> StronglySorted key_lt (keys l).
Proof.
  induction 1 as [| kv l Hs IH Hall]; simpl; intros Hnd; [constructor |].
  inversion Hnd as [| ? ? Hnotin Hnd']; subst.
  constructor; [auto |].
  apply Forall_forall. intros k Hk.
  unfold keys in Hk. apply in_map_iff in Hk. destruct Hk as [kv' [<- Hin]].
  rewrite Forall_forall in Hall. specialize (Hall kv' Hin).
  apply key_le_cases in Hall. destruct Hall as [E | Hlt]; [| exact Hlt].
  exfalso. apply Hnotin. rewrite E. unfold keys. now apply in_map.
Qed.

Lemma perm_wf d1 d2 : Permutation d1 d2 -> wf_dict d1 -> wf_dict d2.
Proof.
  unfold wf_dict, keys. intros HP. apply Permutation_NoDup.
  now apply Permutation_map.
Qed.

Lemma perm_dict_get d1 d2 k :
  Permutation d1 d2 -> wf_dict d1 -> dict_get d1 k = dict_get d2 k.
Proof.
  intros HP Hwf. pose proof (perm_wf d1 d2 HP Hwf) as Hwf2.
  destruct (dict_get d1 k) as [v |] eqn:E.
  - symmetry. apply dict_get_In; [exact Hwf2 |].
    eapply Permutation_in; [exact HP | now apply dict_get_Some_In].
  - symmetry. apply dict_get_None. apply dict_get_None in E.
    intros I. apply E. unfold keys in *.
    eapply Permutation_in; [| exact I].
    apply Permutation_map. now symmetry.
Qed.

Lemma order_params_sorted d : wf_dict d -> _order_params d = sorted d.
Proof.
  intros Hwf. unfold _order_params, items. apply OrderedDict_distinct.
  apply (perm_wf d); [symmetry; apply sorted_perm | exact Hwf].
Qed.

Lemma sorted_fixpoint l : Sorted item_le l -> NoDup (keys l) -> sorted l = l.
Proof.
  induction 1 as [| kv l Hs IH Hhd]; simpl; intros Hnd; [reflexivity |].
  inversion Hnd; subst. rewrite IH by assumption.
  destruct l as [| kv' l]; simpl; [reflexivity |].
  inversion Hhd as [| ? ? Hle]; subst. unfold item_le, key_le in Hle.
  now rewrite Hle.
Qed.

End OrderParams.

Section ParamsSetter.

Context {N : Numerics}.

(** C5.  Assigning a dict [d] to [params] succeeds and stores
    [_order_params d]: the same key -> value pairs in strictly ascending key
    order.  Nothing else of the instance, of the shared cache or of the
    compile log changes; [_order_params] is a function of its argument alone,
    leaves an ordered dict as it is, and orders [{'b': v1, 'a': v2}] as
    [['a', 'b']]. *)
Theorem params_canonical_order (d : dict V) (st : State) :
  wf_dict d ->
  let st' := snd (params_setter (PyDict d) st) in
  fst (params_setter (PyDict d) st) = Ok tt
  /\ params (self st') = _order_params d
  /\ Permutation (items (params (self st'))) (items d)
  /\ StronglySorted key_lt (keys (params (self st')))
  /\ (forall k, dict_get (params (self st')) k = dict_get d k)
  /\ st' = on_instance (set_params (self st) (_order_params d))
             (_cached_rhs_functions st) (lambdify_calls st)
  /\ _order_params (_order_params d) = _order_params d
  /\ (forall v1 v2 : V,
        keys (_order_params [("b", v1); ("a", v2)]) = ["a"; "b"]
        /\ _order_params [("b", v1); ("a", v2)] = [("a", v2); ("b", v1)]).
Proof.
  intros Hwf st'.
  assert (Est : st' = on_instance (set_params (self st) (_order_params d))
                        (_cached_rhs_functions st) (lambdify_calls st))
    by reflexivity.
  assert (Ep : params (self st') = sorted d).
  { rewrite Est. simpl. now apply order_params_sorted. }
  pose proof (sorted_perm d) as HP.
  assert (Hwf' : wf_dict (sorted d))
    by (apply (perm_wf d); [now symmetry | exact Hwf]).
  split; [reflexivity |].
  split; [reflexivity |].
  split; [rewrite Ep; exact HP |].
  split.
  { rewrite Ep. apply ascending_keys; [| exact Hwf'].
    apply Sorted_StronglySorted; [apply item_le_trans | apply sorted_Sorted]. }
  split.
  { intros k. rewrite Ep. symmetry.
    apply perm_dict_get; [now symmetry | exact Hwf]. }
  split; [exact Est |].
  split.
  { rewrite (order_params_sorted d Hwf).
    rewrite (order_params_sorted (sorted d) Hwf').
    apply sorted_fixpoint; [apply sorted_Sorted | exact Hwf']. }
  intros v1 v2. split; reflexivity.
Qed.

End ParamsSetter.

(** ** The shared cache of compiled right-hand sides *)

Section RhsCache.

Context {N : Numerics}.
Implicit Types (s : Solver) (cache : dict callable) (f : callable).

Lemma dict_get_set_same {A} (d : dict A) k v :
  dict_get (dict_set d k v) k = Some v.
Proof.
  induction d as [| [k' v'] d IH]; simpl.
  - now rewrite String.eqb_refl.
  - destruct (String.eqb_spec k k') as [-> | Hne]; simpl.
    + now rewrite String.eqb_refl.
    + destruct (String.eqb_spec k k'); [contradiction | exact IH].
Qed.

Lemma dict_get_set_other {A} (d : dict A) k k' v :
  k' <> k -> dict_get (dict_set d k v) k' = dict_get d k'.
Proof.
  intros Hne. induction d as [| [k0 v0] d IH]; simpl.
  - destruct (String.eqb_spec k' k); [contradiction | reflexivity].
  - destruct (String.eqb_spec k k0) as [-> | Hne0]; simpl.
    + destruct (String.eqb_spec k' k0); [contradiction | reflexivity].
    + destruct (String.eqb_spec k' k0); [reflexivity | exact IH].
Qed.

(** A request for a name the cache holds returns the stored callable and
    changes nothing. *)
Lemma rhs_functions_hit s cache calls var f :
  dict_get cache var = Some f ->
  _rhs_functions var (on_instance s cache calls)
  = (Ok f, on_instance s cache calls).
Proof.
  intros H. unfold _rhs_functions, bind, get_cache, lift, ret, on_instance.
  simpl. rewrite H. simpl. unfold dict_getitem. now rewrite H.
Qed.

(** A request for a name the cache does not hold compiles the model's
    right-hand side and stores it under the name. *)
Lemma rhs_functions_miss s cache calls var eqn :
  dict_get cache var = None ->
  dict_get (rhs (model s)) var = Some eqn ->
  _rhs_functions var (on_instance s cache calls)
  = (Ok (lambdify (_symbolic_args s) eqn),
     on_instance s (dict_set cache var (lambdify (_symbolic_args s) eqn))
       (calls ++ [(_symbolic_args s, eqn)])).
Proof.
  intros Hc Hr.
  unfold _rhs_functions, _lambdify_factory, bind, get_cache, set_cache,
    get_self, log_lambdify, lift, ret, on_instance.
  simpl. rewrite Hc. simpl. unfold dict_getitem at 1. rewrite Hr. simpl.
  unfold dict_getitem. now rewrite dict_get_set_same.
Qed.

(** A request for a name that neither the cache nor the model holds raises
    [KeyError] and changes nothing. *)
Lemma rhs_functions_unknown s cache calls var :
  dict_get cache var = None ->
  dict_get (rhs (model s)) var = None ->
  _rhs_functions var (on_instance s cache calls)
  = (Raise KeyError, on_instance s cache calls).
Proof.
  intros Hc Hr.
  unfold _rhs_functions, bind, get_cache, get_self, lift, on_instance.
  simpl. rewrite Hc. simpl. unfold dict_getitem. now rewrite Hr.
Qed.

(** C6.  The first request for [var] compiles the right-hand side of the
    requesting instance's model with its symbolic arguments, logs one call
    to [lambdify] and stores the callable in the shared cache under [var]
    alone.  Every later request for [var], from any instance [s2] whatever
    its model is, returns that callable, compiles nothing and leaves the
    cache as it is: [s2] sees the function compiled for [s1]. *)
Theorem rhs_functions_cached_by_name s1 s2 cache calls var eqn :
  dict_get cache var = None ->
  dict_get (rhs (model s1)) var = Some eqn ->
  let f := lambdify (_symbolic_args s1) eqn in
  let st1 := snd (_rhs_functions var (on_instance s1 cache calls)) in
  let st2 :=
    on_instance s2 (_cached_rhs_functions st1) (lambdify_calls st1) in
  fst (_rhs_functions var (on_instance s1 cache calls)) = Ok f
  /\ _cached_rhs_functions st1 = dict_set cache var f
  /\ lambdify_calls st1 = calls ++ [(_symbolic_args s1, eqn)]
  /\ dict_get (_cached_rhs_functions st1) var = Some f
  /\ _rhs_functions var st2 = (Ok f, st2)
  /\ _rhs_functions var st1 = (Ok f, st1).
Proof.
  intros Hc Hr f st1 st2.
  pose proof (rhs_functions_miss s1 cache calls var eqn Hc Hr) as E.
  fold f in E. subst st2 st1. rewrite E. simpl.
  repeat split; auto using dict_get_set_same.
  - apply rhs_functions_hit, dict_get_set_same.
  - apply (rhs_functions_hit s1), dict_get_set_same.
Qed.

End RhsCache.

(** ** Residual functions *)

Section Residuals.

Context {N : Numerics}.
Implicit Types (s : Solver) (cache : dict callable) (f : callable)
  (basis_funcs basis_derivs : dict ufunc) (t : V) (vals : list V).

Lemma combine_keys_values {A} (d : dict A) : combine (keys d) (values d) = d.
Proof.
  induction d as [| [k v] d IH]; simpl; [reflexivity | now rewrite IH].
Qed.


(** The values [eval_funcs] returns are those of the basis functions of the
    variables, in the order of the variables. *)
Lemma eval_funcs_values (vars : list symbol) basis_funcs t vals :
  eval_funcs vars basis_funcs t = Ok vals ->
  Forall2
    (fun var y =>
       exists b, dict_get basis_funcs var = Some b /\ b t = Ok y)
    vars vals.
Proof.
  revert vals. induction vars as [| var vars IH]; simpl; intros vals H.
  - injection H as <-. constructor.
  - unfold dict_getitem in H.
    destruct (dict_get basis_funcs var) as [b |] eqn:Eb; simpl in H;
      [| discriminate].
    destruct (b t) as [y |] eqn:Ey; simpl in H; [| discriminate].
    destruct (eval_funcs vars basis_funcs t) as [ys |] eqn:Eys; simpl in H;
      [| discriminate].
    injection H as <-. constructor; [eauto | now apply IH].
Qed.

Lemma Forall2_same_length {A B} (P : A -> B -> Prop) l r :
  Forall2 P l r -> length l = length r.
Proof. induction 1; simpl; congruence. Qed.


End Residuals.

(** ** Boundary residuals *)

Section Boundary.

Context {N : Numerics}.
Implicit Types (s : Solver) (cache : dict callable)
  (calls : list (list symbol * Expr)) (basis_funcs : dict ufunc).

Lemma set_lower_stored s : set_lower s (_Solver__lower_boundary_condition s) = s.
Proof. now destruct s. Qed.

Lemma set_upper_stored s : set_upper s (_Solver__upper_boundary_condition s) = s.
Proof. now destruct s. Qed.

Lemma memoize_lower_model s : model (memoize_lower s) = model s.
Proof. unfold memoize_lower. now destruct (lower _). Qed.

Lemma memoize_lower_params s : params (memoize_lower s) = params s.
Proof. unfold memoize_lower. now destruct (lower _). Qed.

Lemma memoize_lower_upper s :
  _Solver__upper_boundary_condition (memoize_lower s)
  = _Solver__upper_boundary_condition s.
Proof. unfold memoize_lower. now destruct (lower _). Qed.

Lemma memoize_lower_args s :
  _symbolic_args (memoize_lower s) = _symbolic_args s.
Proof.
  unfold _symbolic_args, _symbolic_vars, _symbolic_params.
  now rewrite memoize_lower_model, memoize_lower_params.
Qed.

Lemma compile_log_memoize_lower s condition stored calls :
  compile_log (memoize_lower s) condition stored calls
  = compile_log s condition stored calls.
Proof. unfold compile_log. now rewrite memoize_lower_args. Qed.

Lemma memoize_lower_stored s :
  _Solver__lower_boundary_condition (memoize_lower s)
  = match lower (boundary_conditions (model s)) with
    | Some c =>
        Some (boundary_callable s (_Solver__lower_boundary_condition s) c)
    | None => _Solver__lower_boundary_condition s
    end.
Proof. unfold memoize_lower. now destruct (lower _). Qed.

Lemma memoize_upper_stored s :
  _Solver__upper_boundary_condition (memoize_upper s)
  = match upper (boundary_conditions (model s)) with
    | Some c =>
        Some (boundary_callable s (_Solver__upper_boundary_condition s) c)
    | None => _Solver__upper_boundary_condition s
    end.
Proof. unfold memoize_upper. now destruct (upper _). Qed.

Lemma memoize_lower_twice s : memoize_lower (memoize_lower s) = memoize_lower s.
Proof.
  destruct s as [m p lo up r dg k dm]. unfold memoize_lower. simpl.
  destruct (lower (boundary_conditions m)) eqn:E; simpl; now rewrite ?E.
Qed.

Lemma memoize_upper_twice s : memoize_upper (memoize_upper s) = memoize_upper s.
Proof.
  destruct s as [m p lo up r dg k dm]. unfold memoize_upper. simpl.
  destruct (upper (boundary_conditions m)) eqn:E; simpl; now rewrite ?E.
Qed.

(** Reading the lower property: the callable is compiled if the instance
    holds none, stored, and handed out; a model without a lower condition
    gives [None]. *)
Lemma lower_property s cache calls :
  _lower_boundary_condition (on_instance s cache calls)
  = (Ok (option_map
           (boundary_callable s (_Solver__lower_boundary_condition s))
           (lower (boundary_conditions (model s)))),
     on_instance (memoize_lower s) cache
       (compile_log s (lower (boundary_conditions (model s)))
          (_Solver__lower_boundary_condition s) calls)).
Proof.
  unfold _lower_boundary_condition, _lambdify_factory, memoize_lower, bind,
    get_self, set_self, log_lambdify, ret, on_instance. simpl.
  destruct (lower (boundary_conditions (model s))) as [c |]; simpl;
    [| reflexivity].
  destruct (_Solver__lower_boundary_condition s) as [f |] eqn:E; simpl;
    [| reflexivity].
  rewrite E, <- E, set_lower_stored. reflexivity.
Qed.

Lemma upper_property s cache calls :
  _upper_boundary_condition (on_instance s cache calls)
  = (Ok (option_map
           (boundary_callable s (_Solver__upper_boundary_condition s))
           (upper (boundary_conditions (model s)))),
     on_instance (memoize_upper s) cache
       (compile_log s (upper (boundary_conditions (model s)))
          (_Solver__upper_boundary_condition s) calls)).
Proof.
  unfold _upper_boundary_condition, _lambdify_factory, memoize_upper, bind,
    get_self, set_self, log_lambdify, ret, on_instance. simpl.
  destruct (upper (boundary_conditions (model s))) as [c |]; simpl;
    [| reflexivity].
  destruct (_Solver__upper_boundary_condition s) as [f |] eqn:E; simpl;
    [| reflexivity].
  rewrite E, <- E, set_upper_stored. reflexivity.
Qed.

(** Reading a property again hands out the stored callable and changes
    nothing. *)
Lemma lower_property_again s cache calls c :
  lower (boundary_conditions (model s)) = Some c ->
  _lower_boundary_condition (on_instance (memoize_lower s) cache calls)
  = (Ok (Some (boundary_callable s (_Solver__lower_boundary_condition s) c)),
     on_instance (memoize_lower s) cache calls).
Proof.
  intros Hc. rewrite lower_property.
  rewrite memoize_lower_model, Hc, memoize_lower_stored, Hc. simpl.
  now rewrite memoize_lower_twice.
Qed.

Lemma upper_property_again s cache calls c :
  upper (boundary_conditions (model s)) = Some c ->
  _upper_boundary_condition (on_instance (memoize_upper s) cache calls)
  = (Ok (Some (boundary_callable s (_Solver__upper_boundary_condition s) c)),
     on_instance (memoize_upper s) cache calls).
Proof.
  intros Hc. rewrite upper_property.
  assert (Hm : model (memoize_upper s) = model s)
    by (unfold memoize_upper; now destruct (upper _)).
  rewrite Hm, Hc, memoize_upper_stored, Hc. simpl.
  now rewrite memoize_upper_twice.
Qed.

End Boundary.

Section BoundaryResiduals.

Context {N : Numerics}.
Implicit Types (s : Solver) (cache : dict callable)
  (calls : list (list symbol * Expr)) (basis_funcs : dict ufunc).

Lemma lower_boundary_residual s cache calls basis_funcs (lo : V) vlo rlo :
  _evaluate_basis_funcs s basis_funcs lo = Ok vlo ->
  (forall c,
     lower (boundary_conditions (model s)) = Some c ->
     boundary_callable s (_Solver__lower_boundary_condition s) c
       (lo :: vlo ++ values (params s)) = Ok rlo) ->
  _evaluate_lower_boundary_residual basis_funcs lo (on_instance s cache calls)
  = (Ok (option_map (fun _ => rlo) (lower (boundary_conditions (model s)))),
     on_instance (memoize_lower s) cache
       (compile_log s (lower (boundary_conditions (model s)))
          (_Solver__lower_boundary_condition s) calls)).
Proof.
  intros Hvals Hcall.
  unfold _evaluate_lower_boundary_residual, bind at 1.
  rewrite lower_property.
  destruct (lower (boundary_conditions (model s))) as [c |] eqn:Hc; simpl;
    [| reflexivity].
  unfold bind, get_self, lift, ret. simpl.
  unfold _evaluate_basis_funcs in *. rewrite memoize_lower_model, Hvals.
  rewrite (lower_property_again s cache _ c Hc). simpl.
  rewrite memoize_lower_params, (Hcall c eq_refl). reflexivity.
Qed.

Lemma upper_boundary_residual s cache calls basis_funcs (hi : V) vhi rhi :
  _evaluate_basis_funcs s basis_funcs hi = Ok vhi ->
  (forall c,
     upper (boundary_conditions (model s)) = Some c ->
     boundary_callable s (_Solver__upper_boundary_condition s) c
       (hi :: vhi ++ values (params s)) = Ok rhi) ->
  _evaluate_upper_boundary_residual basis_funcs hi (on_instance s cache calls)
  = (Ok (option_map (fun _ => rhi) (upper (boundary_conditions (model s)))),
     on_instance (memoize_upper s) cache
       (compile_log s (upper (boundary_conditions (model s)))
          (_Solver__upper_boundary_condition s) calls)).
Proof.
  intros Hvals Hcall.
  assert (Hm : model (memoize_upper s) = model s)
    by (unfold memoize_upper; now destruct (upper _)).
  assert (Hp : params (memoize_upper s) = params s)
    by (unfold memoize_upper; now destruct (upper _)).
  unfold _evaluate_upper_boundary_residual, bind at 1.
  rewrite upper_property.
  destruct (upper (boundary_conditions (model s))) as [c |] eqn:Hc; simpl;
    [| reflexivity].
  unfold bind, get_self, lift, ret. simpl.
  unfold _evaluate_basis_funcs in *. rewrite Hm, Hvals.
  rewrite (upper_property_again s cache _ c Hc). simpl.
  rewrite Hp, (Hcall c eq_refl). reflexivity.
Qed.

(** C2.  With basis functions for the model's dependent variables and
    boundary callables that return, [_evaluate_boundary_residuals] returns
    one entry per side that has a boundary condition, the lower one first: as
    many entries as sides are defined (0, 1 or 2).  The lower entry is the
    lower boundary callable (the one stored on the instance, or else the
    lower condition compiled for [_symbolic_args]) called with the lower
    endpoint, the basis-function values there and the parameter values; the
    upper entry is the same at the upper endpoint.  A side without a
    condition contributes nothing and compiles nothing; the callable of a
    side with one is stored on the instance. *)
Theorem boundary_residuals_spec s cache calls basis_funcs (lo hi : V)
    vlo vhi rlo rhi :
  _evaluate_basis_funcs s basis_funcs lo = Ok vlo ->
  _evaluate_basis_funcs s basis_funcs hi = Ok vhi ->
  (forall c,
     lower (boundary_conditions (model s)) = Some c ->
     boundary_callable s (_Solver__lower_boundary_condition s) c
       (lo :: vlo ++ values (params s)) = Ok rlo) ->
  (forall c,
     upper (boundary_conditions (model s)) = Some c ->
     boundary_callable s (_Solver__upper_boundary_condition s) c
       (hi :: vhi ++ values (params s)) = Ok rhi) ->
  let out :=
    _evaluate_boundary_residuals basis_funcs (lo, hi)
      (on_instance s cache calls) in
  let residuals :=
    side_entry (lower (boundary_conditions (model s))) rlo
    ++ side_entry (upper (boundary_conditions (model s))) rhi in
  fst out = Ok residuals
  /\ length residuals = defined_sides (model s)
  /\ self (snd out) = memoize_upper (memoize_lower s)
  /\ _cached_rhs_functions (snd out) = cache
  /\ lambdify_calls (snd out)
     = compile_log s (upper (boundary_conditions (model s)))
         (_Solver__upper_boundary_condition s)
         (compile_log s (lower (boundary_conditions (model s)))
            (_Solver__lower_boundary_condition s) calls).
Proof.
  intros Hlo Hhi Hclo Hchi out residuals.
  assert (E : out
              = (Ok residuals,
                 on_instance (memoize_upper (memoize_lower s)) cache
                   (compile_log s (upper (boundary_conditions (model s)))
                      (_Solver__upper_boundary_condition s)
                      (compile_log s (lower (boundary_conditions (model s)))
                         (_Solver__lower_boundary_condition s) calls)))).
  { subst out. unfold _evaluate_boundary_residuals, bind. simpl fst. simpl snd.
    rewrite (lower_boundary_residual s cache calls basis_funcs lo vlo rlo Hlo
               Hclo).
    rewrite (upper_boundary_residual (memoize_lower s) cache _ basis_funcs hi
               vhi rhi).
    - rewrite memoize_lower_model, memoize_lower_upper, compile_log_memoize_lower.
      unfold ret, residuals, append_if_not_None, side_entry.
      destruct (lower (boundary_conditions (model s)));
        destruct (upper (boundary_conditions (model s))); reflexivity.
    - unfold _evaluate_basis_funcs in *. now rewrite memoize_lower_model.
    - intros c Hc. rewrite memoize_lower_model in Hc.
      rewrite memoize_lower_upper, memoize_lower_params.
      unfold boundary_callable. rewrite memoize_lower_args.
      now apply Hchi. }
  rewrite E. simpl. repeat split.
  unfold residuals, side_entry, defined_sides.
  destruct (lower (boundary_conditions (model s)));
    destruct (upper (boundary_conditions (model s))); reflexivity.
Qed.

End BoundaryResiduals.

(** ** The dict of residual functions *)

Section ResidualDict.

Context {N : Numerics}.

Lemma state_eta (st : State) :
  st = on_instance (self st) (_cached_rhs_functions st) (lambdify_calls st).
Proof. now destruct st. Qed.

(** Every entry of the dict of residual functions is the residual function
    of its key. *)
Lemma construct_residual_funcs_entry (basis_derivs basis_funcs : dict ufunc)
    (var : symbol) (f : V -> M V) :
  dict_get (_construct_residual_funcs basis_derivs basis_funcs) var = Some f ->
  f = _residual_function_factory var basis_derivs basis_funcs.
Proof.
  unfold _construct_residual_funcs.
  set (factory := fun k => _residual_function_factory k basis_derivs basis_funcs).
  assert (G : forall (l : list (symbol * ufunc)) (acc : dict (V -> M V)),
             (forall k g, dict_get acc k = Some g -> g = factory k) ->
             forall k g,
               dict_get
                 (fold_left
                    (fun residual_funcs item =>
                       dict_set residual_funcs (fst item) (factory (fst item)))
                    l acc) k = Some g ->
               g = factory k).
  { induction l as [| [k0 b0] l IH]; intros acc Hacc k g; simpl; [apply Hacc |].
    apply IH. intros k' g'. simpl.
    destruct (String.eqb_spec k' k0) as [-> | Hne].
    - rewrite dict_get_set_same. now intros [= <-].
    - rewrite dict_get_set_other by exact Hne. apply Hacc. }
  apply G. intros k g. simpl. discriminate.
Qed.

End ResidualDict.

(** ** The statements on the integer backend *)


Lemma boundary_residuals_witness :
  fst (_evaluate_boundary_residuals heat_funcs (Num 0, Num 5)
         (fresh heat_solver))
  = Ok [Num (-30); Num 20]
  /\ defined_sides (model heat_solver) = 2%nat.
Proof.
  destruct (boundary_residuals_spec (N := Z_numerics) heat_solver [] [] heat_funcs (Num 0)
              (Num 5) [Num 100; Num 90] [Num 115; Num 90] (Num (-30))
              (Num 20) eq_refl eq_refl)
    as [E [L _]].
  - intros c Hc. injection Hc as <-. reflexivity.
  - intros c Hc. injection Hc as <-. reflexivity.
  - split; [exact E | reflexivity].
Defined.

(** C3 as stated fails: with the degrees listed in another order than the
    model's dependent variables, a matching coefficient mapping does not come
    back from the flat array. *)
Lemma roundtrip_order_counterexample :
  wf_dict swapped_degrees
  /\ wf_dict heat_coefs
  /\ conforms heat_coefs swapped_degrees = true
  /\ roundtrip (dependent_vars heat_model) swapped_degrees heat_coefs
     = Ok [("T2", [Num 100]); ("T1", [Num 3; Num 90])]
  /\ ~ dict_equal [("T2", [Num 100]); ("T1", [Num 3; Num 90])] heat_coefs.
Proof.
  split; [apply distinct_NoDup; reflexivity |].
  split; [apply distinct_NoDup; reflexivity |].
  split; [reflexivity |].
  split; [reflexivity |].
  intros H. specialize (H "T2"). discriminate.
Qed.

Lemma roundtrip_witness :
  exists coefs',
    roundtrip (dependent_vars heat_model) heat_degrees heat_coefs = Ok coefs'
    /\ dict_equal coefs' heat_coefs
    /\ keys coefs' = keys heat_degrees.
Proof.
  apply (roundtrip_in_model_order (dependent_vars heat_model) heat_degrees
           heat_coefs).
  - apply distinct_NoDup. reflexivity.
  - reflexivity.
  - reflexivity.
  - discriminate.
Defined.

Lemma coefs_array_to_dict_witness :
  (_coefs_array_to_dict heat_initial heat_degrees = Raise AssertionError
   <-> Z.of_nat (length heat_initial) <> expected_size heat_degrees)
  /\ (_coefs_array_to_dict [Num 100; Num 3] heat_degrees
      = Raise AssertionError
      <-> Z.of_nat (length [Num 100; Num 3]) <> expected_size heat_degrees).
Proof.
  split.
  - apply (coefs_array_to_dict_shape heat_initial heat_degrees).
    apply distinct_NoDup. reflexivity.
  - apply (coefs_array_to_dict_shape [Num 100; Num 3] heat_degrees).
    apply distinct_NoDup. reflexivity.
Defined.

Lemma params_canonical_order_witness :
  params (self (snd (params_setter heat_params_dict (fresh heat_solver))))
  = [("T10", Num 130); ("T2Ahx", Num 70); ("U", Num 1)]
  /\ StronglySorted key_lt
       (keys (params (self (snd (params_setter heat_params_dict
                                   (fresh heat_solver)))))).
Proof.
  destruct (params_canonical_order (N := Z_numerics) heat_params (fresh heat_solver))
    as [_ [E [_ [S _]]]].
  - apply distinct_NoDup. reflexivity.
  - split; [etransitivity; [exact E | reflexivity] | exact S].
Defined.

Lemma rhs_functions_cached_witness :
  fst (_rhs_functions "T1"
         (on_instance other_solver
            (_cached_rhs_functions
               (snd (_rhs_functions "T1" (fresh heat_solver))))
            (lambdify_calls (snd (_rhs_functions "T1" (fresh heat_solver))))))
  = Ok (@lambdify Z_numerics (_symbolic_args heat_solver)
          (Mul (Sub (Sym "T2") (Sym "T1")) (Sym "U"))).
Proof.
  destruct (rhs_functions_cached_by_name (N := Z_numerics) heat_solver other_solver [] [] "T1"
              (Mul (Sub (Sym "T2") (Sym "T1")) (Sym "U")) eq_refl eq_refl)
    as [_ [_ [_ [_ [E _]]]]].
  unfold fresh. rewrite E. reflexivity.
Defined.

Lemma validation_witness :
  _validate_model heat_params_dict = Raise AttributeError
  /\ _validate_params a_list = Raise AttributeError.
Proof.
  destruct (validation_fails_fast (N := Z_numerics) heat_params_dict a_list
              (fresh heat_solver) eq_refl eq_refl)
    as [E1 [E2 _]].
  split; [exact E1 | exact E2].
Defined.

(** C8 as stated fails: a dict with a value that is not numeric is not a
    key -> numeric mapping, and [_validate_params] accepts it. *)
Lemma validate_params_counterexample :
  key_numeric_mapping znumeric words_dict = false
  /\ _validate_params words_dict = Ok [("U", Str "fast")].
Proof. split; reflexivity. Qed.

Lemma validate_params_witness :
  (exists d, _validate_params words_dict = Ok d)
  /\ _validate_params a_list = Raise AttributeError.
Proof.
  destruct (validate_params_accepts_dicts (N := Z_numerics) words_dict)
    as [[_ A] _].
  destruct (validate_params_accepts_dicts (N := Z_numerics) a_list) as [_ [[_ R] _]].
  split; [apply A; reflexivity | apply R; reflexivity].
Defined.

(** C9 as stated fails: the same model, params, initial coefficients and
    external solver give another Result in a process that has solved a model
    with the same variable names before. *)
Lemma solve_counterexample :
  self (fresh heat_solver) = self after_other_model
  /\ fst (heat_solve (fresh heat_solver))
     = Ok {| Result_x := [Num 19; Num 38; Num (-30); Num 20];
             Result_success := true |}
  /\ fst (heat_solve after_other_model)
     = Ok {| Result_x := [Num 3; Num (-109); Num (-30); Num 20];
             Result_success := true |}
  /\ fst (heat_solve (fresh heat_solver)) <> fst (heat_solve after_other_model).
Proof.
  split; [reflexivity |].
  split; [reflexivity |].
  split; [reflexivity |].
  intros H. vm_compute in H. discriminate.
Qed.

Lemma result_unset_witness :
  result heat_solver = Raise AttributeError
  /\ coefficients heat_solver = Raise AttributeError.
Proof.
  destruct (result_unset_before_solve (N := Z_numerics) (B := Z_monomials) (PyModel heat_model)
              heat_params_dict heat_solver eq_refl)
    as [R [C _]].
  split; [exact R | exact C].
Defined.

(** * Further properties of the code *)

(** ** The codec, from the array's side *)

Section CodecArray.

Context {A : Type}.
Implicit Types (a : list A) (degrees : dict Z) (coefs : dict (list A))
  (vars : list symbol).

(** The loop of [_coefs_dict_to_array] returns the slices of the variables in
    order, and the only way it fails is a variable without an entry. *)
Lemma collect_coefs_outcome vars coefs :
  match collect_coefs vars coefs with
  | Ok slices =>
      Forall2 (fun var slice => dict_get coefs var = Some slice) vars slices
  | Raise e =>
      e = KeyError /\ exists var, In var vars /\ dict_get coefs var = None
  end.
Proof.
  induction vars as [| var vars IH]; simpl; [constructor |].
  unfold dict_getitem.
  destruct (dict_get coefs var) as [slice |] eqn:E; simpl.
  - destruct (collect_coefs vars coefs) as [slices | e]; simpl.
    + now constructor.
    + destruct IH as [-> [v [I H]]]. split; [reflexivity |].
      exists v. split; [now right | exact H].
  - split; [reflexivity |]. exists var. split; [now left | exact E].
Qed.

(** What [_coefs_dict_to_array] does on every input: without dependent
    variables [np.hstack] refuses the empty list ([ValueError]); a dependent
    variable without an entry in the mapping gives [KeyError]; otherwise the
    result is the concatenation of the variables' slices in the model's
    order, whatever else the mapping holds. *)
Theorem coefs_dict_to_array_outcome vars coefs :
  (vars = [] -> _coefs_dict_to_array vars coefs = Raise ValueError)
  /\ ((exists var, In var vars /\ dict_get coefs var = None) ->
      _coefs_dict_to_array vars coefs = Raise KeyError)
  /\ (vars <> [] ->
      (forall var, In var vars -> dict_get coefs var <> None) ->
      exists slices,
        Forall2 (fun var slice => dict_get coefs var = Some slice) vars slices
        /\ _coefs_dict_to_array vars coefs = Ok (concat slices)).
Proof.
  unfold _coefs_dict_to_array.
  pose proof (collect_coefs_outcome vars coefs) as H.
  split; [| split].
  - intros ->. reflexivity.
  - intros [var [I Hnone]].
    destruct (collect_coefs vars coefs) as [slices | e]; simpl.
    + exfalso. revert var I Hnone.
      induction H as [| v sl vs sls Hv Hrest IH]; intros var I Hnone;
        simpl in I; [contradiction |].
      destruct I as [<- | I]; [congruence | eauto].
    + now destruct H as [-> _].
  - intros Hne Hall.
    destruct (collect_coefs vars coefs) as [slices | e]; simpl.
    + exists slices. split; [exact H |].
      destruct slices as [| slice slices]; [| reflexivity].
      inversion H; subst. congruence.
    + destruct H as [_ [var [I Hnone]]]. exfalso. now apply (Hall var).
Qed.

Lemma slice_partition a (n : Z) : slice_to a n ++ slice_from a n = a.
Proof. unfold slice_to, slice_from. apply firstn_skipn. Qed.

(** The slices are consecutive pieces of the array, in order. *)
Lemma chunks_partition degrees a :
  exists rest, concat (values (chunks degrees a)) ++ rest = a.
Proof.
  revert a. induction degrees as [| [var degree] degrees IH]; intros a; simpl.
  - now exists a.
  - destruct (IH (slice_from a (degree + 1))) as [rest Hrest].
    exists rest. rewrite <- app_assoc, Hrest. apply slice_partition.
Qed.

Lemma chunks_total_length degrees a :
  (forall var degree, In (var, degree) degrees -> 0 <= degree) ->
  Z.of_nat (length a) = expected_size degrees ->
  Z.of_nat (length (concat (values (chunks degrees a))))
  = expected_size degrees.
Proof.
  revert a. induction degrees as [| [var degree] degrees IH]; intros a Hpos Hlen;
    simpl in *; [reflexivity |].
  assert (H0 : 0 <= degree) by (eapply Hpos; now left).
  assert (Hrest : 0 <= expected_size degrees)
    by (apply expected_size_nonneg; intros; eapply Hpos; eauto).
  rewrite length_app, Nat2Z.inj_add, slice_to_length by lia.
  rewrite IH; [lia | intros; eapply Hpos; eauto |].
  rewrite slice_from_length; lia.
Qed.

Lemma chunks_concat_all degrees a :
  (forall var degree, In (var, degree) degrees -> 0 <= degree) ->
  Z.of_nat (length a) = expected_size degrees ->
  concat (values (chunks degrees a)) = a.
Proof.
  intros Hpos E.
  destruct (chunks_partition degrees a) as [rest Hrest].
  pose proof (chunks_total_length degrees a Hpos E) as Hlen.
  assert (Hr : rest = []).
  { apply (f_equal (@length A)) in Hrest. rewrite length_app in Hrest.
    destruct rest; [reflexivity | simpl in Hrest; lia]. }
  subst rest. now rewrite app_nil_r in Hrest.
Qed.

(** [_coefs_array_to_dict] never reorders, repeats or invents coefficients:
    on a dict of degrees the slices it returns, concatenated in the order of
    the mapping, are a prefix of the array; with non-negative degrees they
    are the whole array. *)
Theorem coefs_array_to_dict_partition a degrees coefs :
  wf_dict degrees ->
  _coefs_array_to_dict a degrees = Ok coefs ->
  (exists rest, concat (values coefs) ++ rest = a)
  /\ ((forall var degree, In (var, degree) degrees -> 0 <= degree) ->
      concat (values coefs) = a).
Proof.
  intros Hwf H. rewrite coefs_array_to_dict_chunks in H by exact Hwf.
  destruct (Z.eqb_spec (Z.of_nat (length a)) (expected_size degrees))
    as [E | NE]; [| discriminate].
  injection H as <-.
  split; [apply chunks_partition |].
  intros Hpos. now apply chunks_concat_all.
Qed.

Lemma collect_own_items (l : list (symbol * list A)) coefs :
  (forall k v, In (k, v) l -> dict_get coefs k = Some v) ->
  collect_coefs (keys l) coefs = Ok (values l).
Proof.
  induction l as [| [k v] l IH]; intros H; simpl; [reflexivity |].
  unfold dict_getitem. rewrite (H k v) by now left. simpl.
  rewrite IH; [reflexivity |]. intros k' v' I. apply H. now right.
Qed.

(** Array to mapping and back.  With non-negative degrees, at least one
    variable and the degrees listed in the model's dependent-variable order,
    the mapping that [_coefs_array_to_dict] returns for an array is turned
    back into that array by [_coefs_dict_to_array]. *)
Theorem array_roundtrip a degrees coefs vars :
  wf_dict degrees ->
  (forall var degree, In (var, degree) degrees -> 0 <= degree) ->
  keys degrees = vars ->
  vars <> [] ->
  _coefs_array_to_dict a degrees = Ok coefs ->
  _coefs_dict_to_array vars coefs = Ok a.
Proof.
  intros Hwf Hpos <- Hne H.
  rewrite coefs_array_to_dict_chunks in H by exact Hwf.
  destruct (Z.eqb_spec (Z.of_nat (length a)) (expected_size degrees))
    as [Hsize | NE]; [| discriminate].
  injection H as <-.
  pose proof (chunks_concat_all degrees a Hpos Hsize) as Hall.
  unfold _coefs_dict_to_array.
  rewrite <- (keys_chunks degrees a).
  rewrite collect_own_items.
  - simpl. rewrite <- Hall at 2.
    destruct (values (chunks degrees a)) as [| slice slices] eqn:E;
      [| reflexivity].
    exfalso. apply Hne. rewrite <- (keys_chunks degrees a).
    unfold values in E. apply map_eq_nil in E. now rewrite E.
  - intros k v I. apply dict_get_In; [| exact I].
    unfold wf_dict. now rewrite keys_chunks.
Qed.

End CodecArray.

(** ** Canonical order does not depend on insertion order *)

Section Canonical.

Context {A : Type}.
Implicit Types (l d : list (symbol * A)).

(** Two lists of items sorted by key, with distinct keys and the same items,
    are the same list. *)
Lemma sorted_items_unique l1 l2 :
  Permutation l1 l2 ->
  NoDup (keys l1) ->
  StronglySorted item_le l1 ->
  StronglySorted item_le l2 ->
  l1 = l2.
Proof.
  revert l2. induction l1 as [| x1 t1 IH]; intros l2 HP Hnd S1 S2.
  - apply Permutation_nil in HP. now subst.
  - destruct l2 as [| x2 t2].
    { symmetry in HP. apply Permutation_nil in HP. discriminate. }
    inversion S1 as [| ? ? S1' F1]; subst.
    inversion S2 as [| ? ? S2' F2]; subst.
    inversion Hnd as [| ? ? Hnotin Hnd']; subst.
    assert (E : x1 = x2).
    { assert (I1 : In x1 (x2 :: t2))
        by (eapply Permutation_in; [exact HP | now left]).
      assert (I2 : In x2 (x1 :: t1))
        by (eapply Permutation_in; [symmetry; exact HP | now left]).
      destruct I1 as [E | I1]; [now symmetry |].
      destruct I2 as [E | I2]; [exact E |].
      exfalso. rewrite Forall_forall in F1, F2.
      pose proof (F1 x2 I2) as L12. pose proof (F2 x1 I1) as L21.
      unfold item_le, key_le in *.
      assert (K : fst x1 = fst x2) by now apply String.leb_antisym.
      apply Hnotin. rewrite K. unfold keys. now apply in_map. }
    subst x2. f_equal. apply IH; auto.
    now apply Permutation_cons_inv in HP.
Qed.

Lemma wf_items_NoDup d : wf_dict d -> NoDup d.
Proof. unfold wf_dict, keys. apply NoDup_map_inv. Qed.

(** Dicts that are equal in Python's sense have the same items. *)
Lemma dict_equal_perm d1 d2 :
  wf_dict d1 -> wf_dict d2 -> dict_equal d1 d2 -> Permutation d1 d2.
Proof.
  intros W1 W2 E. apply NoDup_Permutation; auto using wf_items_NoDup.
  intros [k v]. split; intros I.
  - apply dict_get_Some_In. rewrite <- E. now apply dict_get_In.
  - apply dict_get_Some_In. rewrite E. now apply dict_get_In.
Qed.

(** [_order_params] is a canonical form: two dicts with the same keys and
    the same values, entered in whatever order, are stored as the same
    ordered dict, so the positional order of the parameters never depends on
    how the caller built the dict. *)
Theorem order_params_canonical d1 d2 :
  wf_dict d1 ->
  wf_dict d2 ->
  dict_equal d1 d2 ->
  _order_params d1 = _order_params d2.
Proof.
  intros W1 W2 E.
  rewrite (order_params_sorted d1 W1), (order_params_sorted d2 W2).
  pose proof (dict_equal_perm d1 d2 W1 W2 E) as HP.
  apply sorted_items_unique.
  - rewrite (sorted_perm d1), HP. symmetry. apply sorted_perm.
  - apply (perm_wf d1); [symmetry; apply sorted_perm | exact W1].
  - apply Sorted_StronglySorted; [apply item_le_trans | apply sorted_Sorted].
  - apply Sorted_StronglySorted; [apply item_le_trans | apply sorted_Sorted].
Qed.

End Canonical.

Section Constructor.

Context {N : Numerics}.

(** [Solver(model, params)] on a model and a dict succeeds and leaves the
    instance with that model, the params in ascending key order, no stored
    boundary callable and no result.  The symbols it will compile for are the
    independent variable, the dependent variables in the model's order, then
    the parameter names in ascending order, and each parameter name is paired
    with its own value. *)
Theorem init_symbolic_args (m : SymbolicModel) (d : dict V) :
  wf_dict d ->
  exists s,
    __init__ (PyModel m) (PyDict d) = Ok s
    /\ model s = m
    /\ Permutation (params s) d
    /\ StronglySorted key_lt (_symbolic_params s)
    /\ _symbolic_args s
       = independent_var m :: dependent_vars m ++ keys (sorted d)
    /\ combine (_symbolic_params s) (values (params s)) = sorted d
    /\ (forall k v, dict_get d k = Some v ->
        In (k, v) (combine (_symbolic_params s) (values (params s))))
    /\ _Solver__lower_boundary_condition s = None
    /\ _Solver__upper_boundary_condition s = None
    /\ _result s = None.
Proof.
  intros Hwf. eexists. split; [reflexivity |].
  unfold _symbolic_args, _symbolic_vars, _symbolic_params, params, model.
  cbn [_model _params _Solver__lower_boundary_condition
         _Solver__upper_boundary_condition _result].
  rewrite (order_params_sorted d Hwf).
  pose proof (sorted_perm d) as HP.
  assert (Hwf' : wf_dict (sorted d))
    by (apply (perm_wf d); [now symmetry | exact Hwf]).
  repeat split; auto.
  - apply ascending_keys; [| exact Hwf'].
    apply Sorted_StronglySorted; [apply item_le_trans | apply sorted_Sorted].
  - apply combine_keys_values.
  - intros k v Hget. rewrite combine_keys_values.
    eapply Permutation_in; [symmetry; exact HP |].
    now apply dict_get_Some_In.
Qed.

End Constructor.

(** ** The shared cache only grows *)

Section CacheGrowth.

Context {N : Numerics}.
Implicit Types (st : State) (var : symbol).

(** Whatever the state, a request to [_rhs_functions] never replaces or
    removes an entry of the shared cache and touches no name but the
    requested one; it leaves the instance alone, calls [lambdify] at most
    once and, when it returns, hands out exactly what the cache then holds
    under the name.  When it fails the cache is as it was before; a name
    that neither the cache nor the model's right-hand sides hold gives
    [KeyError] and changes nothing at all. *)
Theorem rhs_functions_cache_grows var st :
  let out := _rhs_functions var st in
  self (snd out) = self st
  /\ (forall v f,
        dict_get (_cached_rhs_functions st) v = Some f ->
        dict_get (_cached_rhs_functions (snd out)) v = Some f)
  /\ (forall v,
        v <> var ->
        dict_get (_cached_rhs_functions (snd out)) v
        = dict_get (_cached_rhs_functions st) v)
  /\ (forall f,
        fst out = Ok f ->
        dict_get (_cached_rhs_functions (snd out)) var = Some f)
  /\ (exists new_calls,
        lambdify_calls (snd out) = lambdify_calls st ++ new_calls
        /\ (length new_calls <= 1)%nat)
  /\ (forall e,
        fst out = Raise e ->
        _cached_rhs_functions (snd out) = _cached_rhs_functions st)
  /\ (dict_get (_cached_rhs_functions st) var = None ->
      dict_get (rhs (model (self st))) var = None ->
      out = (Raise KeyError, st)).
Proof.
  intros out. subst out. destruct st as [s cache calls].
  cbn [self _cached_rhs_functions lambdify_calls].
  fold (on_instance s cache calls).
  destruct (dict_get cache var) as [f |] eqn:Ec.
  - rewrite (rhs_functions_hit s cache calls var f Ec). simpl.
    split; [reflexivity |]. split; [auto |]. split; [auto |].
    split; [now intros f' [= <-] |].
    split; [exists []; split; [now rewrite app_nil_r | simpl; lia] |].
    split; [reflexivity | discriminate].
  - destruct (dict_get (rhs (model s)) var) as [eqn |] eqn:Er.
    + rewrite (rhs_functions_miss s cache calls var eqn Ec Er). simpl.
      split; [reflexivity |].
      split.
      { intros v f Hv. destruct (String.eqb_spec v var) as [-> | Hne];
          [congruence |].
        now rewrite dict_get_set_other. }
      split; [intros v Hne; now apply dict_get_set_other |].
      split; [intros f [= <-]; apply dict_get_set_same |].
      split; [eexists; split; [reflexivity | simpl; lia] |].
      split; discriminate.
    + rewrite (rhs_functions_unknown s cache calls var Ec Er). simpl.
      split; [reflexivity |]. split; [auto |]. split; [auto |].
      split; [discriminate |].
      split; [exists []; split; [now rewrite app_nil_r | simpl; lia] |].
      split; reflexivity.
Qed.

(** The steps of a residual function, in the order the code takes them. *)
Lemma residual_function_run var (basis_derivs basis_funcs : dict ufunc)
    (t : V) (s : Solver) (cache : dict callable) calls :
  _residual_function_factory var basis_derivs basis_funcs t
    (on_instance s cache calls)
  = match _evaluate_basis_funcs s basis_funcs t with
    | Raise e => (Raise e, on_instance s cache calls)
    | Ok vals =>
        match dict_getitem basis_derivs var with
        | Raise e => (Raise e, on_instance s cache calls)
        | Ok deriv =>
            match deriv t with
            | Raise e => (Raise e, on_instance s cache calls)
            | Ok d =>
                match _rhs_functions var (on_instance s cache calls) with
                | (Raise e, st') => (Raise e, st')
                | (Ok f, st') =>
                    (res_bind (f (t :: vals ++ values (params s)))
                       (fun y => sub d y), st')
                end
            end
        end
    end.
Proof.
  unfold _residual_function_factory, bind at 1 2 3 4 5, get_self, lift.
  cbn [self on_instance].
  destruct (_evaluate_basis_funcs s basis_funcs t); [| reflexivity].
  destruct (dict_getitem basis_derivs var) as [deriv |]; [| reflexivity].
  destruct (deriv t); [| reflexivity].
  destruct (_rhs_functions var _) as [[f | e] st']; [| reflexivity].
  unfold bind. destruct (f _); reflexivity.
Qed.

(** Evaluating a residual function a second time gives the same outcome as
    the first time and changes nothing more: whatever had to be compiled was
    compiled by the first evaluation.  The instance itself is never
    changed. *)
Theorem residual_function_repeatable var (basis_derivs basis_funcs : dict ufunc)
    (t : V) st :
  let residual_function :=
    _residual_function_factory var basis_derivs basis_funcs t in
  let out := residual_function st in
  residual_function (snd out) = (fst out, snd out)
  /\ self (snd out) = self st.
Proof.
  intros residual_function out. subst residual_function.
  destruct st as [s cache calls]. fold (on_instance s cache calls) in *.
  assert (Hsame : forall r,
             out = (r, on_instance s cache calls) ->
             _residual_function_factory var basis_derivs basis_funcs t
               (snd out) = (fst out, snd out)
             /\ self (snd out) = self (on_instance s cache calls)).
  { intros r E. rewrite E. cbn [fst snd]. split; [| reflexivity].
    rewrite <- E. reflexivity. }
  pose proof (residual_function_run var basis_derivs basis_funcs t s cache
                calls) as Hrun.
  fold out in Hrun.
  destruct (_evaluate_basis_funcs s basis_funcs t) as [vals | e] eqn:Ev;
    [| now apply (Hsame (Raise e))].
  destruct (dict_getitem basis_derivs var) as [deriv | e] eqn:Ed;
    [| now apply (Hsame (Raise e))].
  destruct (deriv t) as [d | e] eqn:Edt; [| now apply (Hsame (Raise e))].
  destruct (dict_get cache var) as [f |] eqn:Ec.
  - rewrite (rhs_functions_hit s cache calls var f Ec) in Hrun.
    now apply (Hsame _ Hrun).
  - destruct (dict_get (rhs (model s)) var) as [eqn |] eqn:Er.
    + rewrite (rhs_functions_miss s cache calls var eqn Ec Er) in Hrun.
      rewrite Hrun. cbn [fst snd]. split; [| reflexivity].
      rewrite residual_function_run, Ev, Ed, Edt.
      rewrite (rhs_functions_hit s _ _ var _ (dict_get_set_same cache var _)).
      reflexivity.
    + rewrite (rhs_functions_unknown s cache calls var Ec Er) in Hrun.
      now apply (Hsame _ Hrun).
Qed.

End CacheGrowth.

(** ** Boundary callables are compiled once *)

Section BoundaryMemo.

Context {N : Numerics}.
Implicit Types (s : Solver) (cache : dict callable)
  (calls : list (list symbol * Expr)) (basis_funcs : dict ufunc).

Ltac by_cases_on s :=
  destruct s as [m p lo up r dg k dm];
  unfold lower_outcome, upper_outcome, memoize_lower, memoize_upper,
    compile_log, boundary_callable, _evaluate_basis_funcs;
  cbn;
  destruct (lower (boundary_conditions m)) eqn:El,
    (upper (boundary_conditions m)) eqn:Eu, lo, up;
  cbn; rewrite ?El, ?Eu; cbn; rewrite ?El, ?Eu; reflexivity.

Lemma lower_outcome_memoize_lower s basis_funcs x :
  lower_outcome (memoize_lower s) basis_funcs x = lower_outcome s basis_funcs x.
Proof. by_cases_on s. Qed.

Lemma upper_outcome_memoize_lower s basis_funcs x :
  upper_outcome (memoize_lower s) basis_funcs x = upper_outcome s basis_funcs x.
Proof. by_cases_on s. Qed.

Lemma lower_outcome_settled s basis_funcs x :
  lower_outcome (memoize_upper (memoize_lower s)) basis_funcs x
  = lower_outcome s basis_funcs x.
Proof. by_cases_on s. Qed.

Lemma upper_outcome_settled s basis_funcs x :
  upper_outcome (memoize_upper (memoize_lower s)) basis_funcs x
  = upper_outcome s basis_funcs x.
Proof. by_cases_on s. Qed.

Lemma memoize_lower_settled s :
  memoize_lower (memoize_upper (memoize_lower s))
  = memoize_upper (memoize_lower s).
Proof. by_cases_on s. Qed.

Lemma compile_log_lower_memoized s calls :
  compile_log (memoize_lower s)
    (lower (boundary_conditions (model (memoize_lower s))))
    (_Solver__lower_boundary_condition (memoize_lower s)) calls
  = calls.
Proof. by_cases_on s. Qed.

Lemma compile_log_lower_settled s calls :
  compile_log (memoize_upper (memoize_lower s))
    (lower (boundary_conditions (model (memoize_upper (memoize_lower s)))))
    (_Solver__lower_boundary_condition (memoize_upper (memoize_lower s)))
    calls
  = calls.
Proof. by_cases_on s. Qed.

Lemma compile_log_upper_settled s calls :
  compile_log (memoize_upper (memoize_lower s))
    (upper (boundary_conditions (model (memoize_upper (memoize_lower s)))))
    (_Solver__upper_boundary_condition (memoize_upper (memoize_lower s)))
    calls
  = calls.
Proof. by_cases_on s. Qed.

(** The steps of [_evaluate_lower_boundary_residual], whatever they
    return. *)
Lemma lower_residual_run s cache calls basis_funcs (lo : V) :
  _evaluate_lower_boundary_residual basis_funcs lo (on_instance s cache calls)
  = (lower_outcome s basis_funcs lo,
     on_instance (memoize_lower s) cache
       (compile_log s (lower (boundary_conditions (model s)))
          (_Solver__lower_boundary_condition s) calls)).
Proof.
  unfold _evaluate_lower_boundary_residual, bind at 1, lower_outcome.
  rewrite lower_property.
  destruct (lower (boundary_conditions (model s))) as [c |] eqn:Hc; simpl;
    [| reflexivity].
  unfold bind at 1, get_self. cbn [self on_instance].
  unfold bind at 1, lift at 1.
  unfold _evaluate_basis_funcs. rewrite memoize_lower_model.
  destruct (eval_funcs (dependent_vars (model s)) basis_funcs lo)
    as [vals | e]; [| reflexivity].
  unfold bind at 1.
  fold (on_instance (memoize_lower s) cache
          (compile_log s (Some c) (_Solver__lower_boundary_condition s) calls)).
  rewrite (lower_property_again s cache _ c Hc).
  unfold bind, lift, ret, call. rewrite memoize_lower_params. simpl.
  destruct (boundary_callable s (_Solver__lower_boundary_condition s) c _);
    reflexivity.
Qed.

Lemma upper_residual_run s cache calls basis_funcs (hi : V) :
  _evaluate_upper_boundary_residual basis_funcs hi (on_instance s cache calls)
  = (upper_outcome s basis_funcs hi,
     on_instance (memoize_upper s) cache
       (compile_log s (upper (boundary_conditions (model s)))
          (_Solver__upper_boundary_condition s) calls)).
Proof.
  assert (Hm : model (memoize_upper s) = model s)
    by (unfold memoize_upper; now destruct (upper _)).
  assert (Hp : params (memoize_upper s) = params s)
    by (unfold memoize_upper; now destruct (upper _)).
  unfold _evaluate_upper_boundary_residual, bind at 1, upper_outcome.
  rewrite upper_property.
  destruct (upper (boundary_conditions (model s))) as [c |] eqn:Hc; simpl;
    [| reflexivity].
  unfold bind at 1, get_self. cbn [self on_instance].
  unfold bind at 1, lift at 1.
  unfold _evaluate_basis_funcs. rewrite Hm.
  destruct (eval_funcs (dependent_vars (model s)) basis_funcs hi)
    as [vals | e]; [| reflexivity].
  unfold bind at 1.
  fold (on_instance (memoize_upper s) cache
          (compile_log s (Some c) (_Solver__upper_boundary_condition s) calls)).
  rewrite (upper_property_again s cache _ c Hc).
  unfold bind, lift, ret, call. rewrite Hp. simpl.
  destruct (boundary_callable s (_Solver__upper_boundary_condition s) c _);
    reflexivity.
Qed.

End BoundaryMemo.

Section BoundaryRepeat.

Context {N : Numerics}.
Implicit Types (s : Solver) (cache : dict callable)
  (calls : list (list symbol * Expr)) (basis_funcs : dict ufunc).

Lemma boundary_residuals_run s cache calls basis_funcs (dom : V * V) :
  _evaluate_boundary_residuals basis_funcs dom (on_instance s cache calls)
  = match lower_outcome s basis_funcs (fst dom) with
    | Raise e =>
        (Raise e,
         on_instance (memoize_lower s) cache
           (compile_log s (lower (boundary_conditions (model s)))
              (_Solver__lower_boundary_condition s) calls))
    | Ok lower_residual =>
        (match upper_outcome s basis_funcs (snd dom) with
         | Raise e => Raise e
         | Ok upper_residual =>
             Ok (append_if_not_None (append_if_not_None [] lower_residual)
                   upper_residual)
         end,
         on_instance (memoize_upper (memoize_lower s)) cache
           (compile_log s (upper (boundary_conditions (model s)))
              (_Solver__upper_boundary_condition s)
              (compile_log s (lower (boundary_conditions (model s)))
                 (_Solver__lower_boundary_condition s) calls)))
    end.
Proof.
  unfold _evaluate_boundary_residuals, bind at 1.
  rewrite lower_residual_run.
  destruct (lower_outcome s basis_funcs (fst dom)) as [lower_residual | e];
    [| reflexivity].
  unfold bind at 1. rewrite upper_residual_run.
  rewrite upper_outcome_memoize_lower, memoize_lower_model,
    memoize_lower_upper, compile_log_memoize_lower.
  destruct (upper_outcome s basis_funcs (snd dom)); reflexivity.
Qed.

(** Evaluating the boundary residuals a second time gives the same outcome
    as the first time, compiles nothing and changes nothing more; no
    evaluation touches the shared cache of right-hand sides, the model or the
    params. *)
Theorem boundary_residuals_repeatable basis_funcs (dom : V * V) (st : State) :
  let out := _evaluate_boundary_residuals basis_funcs dom st in
  _evaluate_boundary_residuals basis_funcs dom (snd out) = (fst out, snd out)
  /\ _cached_rhs_functions (snd out) = _cached_rhs_functions st
  /\ model (self (snd out)) = model (self st)
  /\ params (self (snd out)) = params (self st).
Proof.
  intros out. subst out. destruct st as [s cache calls].
  fold (on_instance s cache calls).
  rewrite (boundary_residuals_run s cache calls).
  destruct (lower_outcome s basis_funcs (fst dom)) as [lower_residual | e]
    eqn:El; cbn [fst snd self on_instance _cached_rhs_functions].
  - split; [| split; [reflexivity | split]].
    + fold (on_instance (memoize_upper (memoize_lower s)) cache
              (compile_log s (upper (boundary_conditions (model s)))
                 (_Solver__upper_boundary_condition s)
                 (compile_log s (lower (boundary_conditions (model s)))
                    (_Solver__lower_boundary_condition s) calls))).
      rewrite boundary_residuals_run.
      rewrite lower_outcome_settled, El, upper_outcome_settled.
      rewrite compile_log_lower_settled, compile_log_upper_settled.
      rewrite memoize_lower_settled, memoize_upper_twice. reflexivity.
    + unfold memoize_upper. rewrite memoize_lower_model.
      destruct (upper _); apply memoize_lower_model.
    + unfold memoize_upper. rewrite memoize_lower_model.
      destruct (upper _); apply memoize_lower_params.
  - split; [| split; [reflexivity | split]].
    + fold (on_instance (memoize_lower s) cache
              (compile_log s (lower (boundary_conditions (model s)))
                 (_Solver__lower_boundary_condition s) calls)).
      rewrite boundary_residuals_run.
      rewrite lower_outcome_memoize_lower, El.
      rewrite compile_log_lower_memoized, memoize_lower_twice. reflexivity.
    + apply memoize_lower_model.
    + apply memoize_lower_params.
Qed.

(** Assigning another model does not reset the stored boundary callable.
    Once the lower property has been read on a model with a lower condition,
    the instance keeps handing out that callable after [self.model = m2]:
    if [m2] has a lower condition too, whichever it is, the property returns
    the callable compiled before and compiles nothing; if [m2] has none, the
    property returns [None]. *)
Theorem lower_callable_outlives_model s cache calls (m2 : SymbolicModel)
    (c1 : Expr) :
  lower (boundary_conditions (model s)) = Some c1 ->
  let st1 := snd (_lower_boundary_condition (on_instance s cache calls)) in
  let st2 := snd (model_setter (PyModel m2) st1) in
  fst (model_setter (PyModel m2) st1) = Ok tt
  /\ model (self st2) = m2
  /\ params (self st2) = params s
  /\ _lower_boundary_condition st2
     = (Ok (option_map
              (fun _ =>
                 boundary_callable s (_Solver__lower_boundary_condition s) c1)
              (lower (boundary_conditions m2))),
        st2).
Proof.
  intros Hc st1 st2. subst st2 st1. rewrite lower_property.
  cbn [fst snd]. unfold model_setter, bind, lift, get_self, set_self.
  cbn [_validate_model fst snd self on_instance _cached_rhs_functions
         lambdify_calls].
  split; [reflexivity |]. split; [reflexivity |].
  split; [apply memoize_lower_params |].
  fold (on_instance (set_model (memoize_lower s) m2) cache
          (compile_log s (lower (boundary_conditions (model s)))
             (_Solver__lower_boundary_condition s) calls)).
  rewrite lower_property.
  destruct s as [m p lo up r dg k dm].
  unfold memoize_lower, compile_log, boundary_callable in *. cbn in *.
  rewrite Hc. cbn.
  destruct (lower (boundary_conditions m2)) eqn:E2; cbn; rewrite ?E2;
    reflexivity.
Qed.

End BoundaryRepeat.

(** ** Dicts of basis and residual functions *)

Section Construct.

Context {N : Numerics}.

Lemma construct_basis_outcome
    (factory : list V -> string -> V * V -> res ufunc)
    (l : list (symbol * list V)) (k : string) (dom : V * V)
    (acc : dict ufunc) :
  NoDup (keys acc ++ keys l) ->
  match construct_basis factory l k dom acc with
  | Ok basis =>
      exists fs,
        Forall2 (fun item f => factory (snd item) k dom = Ok f) l fs
        /\ basis = acc ++ combine (keys l) fs
  | Raise e =>
      exists var coef, In (var, coef) l /\ factory coef k dom = Raise e
  end.
Proof.
  revert acc. induction l as [| [var coef] l IH]; intros acc Hnd; simpl.
  - exists []. split; [constructor | now rewrite app_nil_r].
  - destruct (factory coef k dom) as [f | e] eqn:Ef; simpl.
    + assert (Hfresh : ~ In var (keys acc)).
      { simpl in Hnd. apply NoDup_remove_2 in Hnd.
        intros I. apply Hnd. apply in_or_app. now left. }
      rewrite (dict_set_fresh acc var f Hfresh).
      specialize (IH (acc ++ [(var, f)])).
      rewrite keys_app, <- app_assoc in IH. specialize (IH Hnd).
      destruct (construct_basis factory l k dom (acc ++ [(var, f)]))
        as [basis | e].
      * destruct IH as [fs [Hall ->]]. exists (f :: fs).
        split; [now constructor | now rewrite <- app_assoc].
      * destruct IH as [v [c [I H]]]. exists v, c. split; [now right | exact H].
    + exists var, coef. split; [now left | exact Ef].
Qed.

Lemma combine_keys_lookup {X Y} (P : symbol * X -> Y -> Prop)
    (l : list (symbol * X)) (ys : list Y) (var : symbol) (x : X) :
  Forall2 P l ys ->
  NoDup (keys l) ->
  dict_get l var = Some x ->
  exists y, P (var, x) y /\ dict_get (combine (keys l) ys) var = Some y.
Proof.
  induction 1 as [| [k0 x0] y0 l ys Hhd Htl IH]; simpl; [discriminate |].
  intros Hnd Hget. inversion Hnd; subst.
  destruct (String.eqb_spec var k0) as [-> | Hne].
  - injection Hget as <-. now exists y0.
  - now apply IH.
Qed.

Lemma Forall2_keys_combine {X Y} (P : symbol * X -> Y -> Prop)
    (l : list (symbol * X)) (ys : list Y) :
  Forall2 P l ys -> keys (combine (keys l) ys) = keys l.
Proof.
  induction 1 as [| [k0 x0] y0 l ys Hhd Htl IH]; simpl; [reflexivity |].
  now rewrite IH.
Qed.

Lemma construct_basis_built
    (factory : list V -> string -> V * V -> res ufunc)
    (coefs : dict (list V)) (k : string) (dom : V * V) :
  wf_dict coefs ->
  basis_built factory coefs k dom (construct_basis factory coefs k dom []).
Proof.
  intros Hwf.
  pose proof (construct_basis_outcome factory coefs k dom [] Hwf) as H.
  unfold basis_built.
  destruct (construct_basis factory coefs k dom []) as [basis | e];
    [| exact H].
  destruct H as [fs [Hall ->]]. simpl. split.
  - eapply Forall2_keys_combine; eauto.
  - intros var coef Hget.
    destruct (combine_keys_lookup _ coefs fs var coef Hall Hwf Hget)
      as [f [Hf Hl]].
    now exists f.
Qed.

(** On a dict of coefficients, [_construct_basis_funcs] and
    [_construct_basis_derivs] either return a dict with exactly the variables
    of the coefficient mapping, in its order, each entry made by the factory
    from that variable's own coefficients, or fail with the error of a
    factory call on one of the entries. *)
Theorem construct_basis_keyed_by_coefs {B : BasisFamily}
    (coefs : dict (list V)) (k : string) (dom : V * V) :
  wf_dict coefs ->
  basis_built _basis_function_factory coefs k dom
    (_construct_basis_funcs coefs k dom)
  /\ basis_built _basis_derivative_factory coefs k dom
       (_construct_basis_derivs coefs k dom).
Proof.
  intros Hwf. split; now apply construct_basis_built.
Qed.

Lemma fold_residual_lookup (g : symbol -> V -> M V)
    (l : list (symbol * ufunc)) (acc : dict (V -> M V)) (var : symbol) :
  dict_get
    (fold_left (fun residual_funcs item =>
                  dict_set residual_funcs (fst item) (g (fst item))) l acc)
    var
  = match dict_get l var with
    | Some _ => Some (g var)
    | None => dict_get acc var
    end.
Proof.
  revert acc. induction l as [| [k0 b0] l IH]; intros acc; simpl;
    [reflexivity |].
  rewrite IH. destruct (String.eqb_spec var k0) as [-> | Hne].
  - destruct (dict_get l k0); [reflexivity | apply dict_get_set_same].
  - destruct (dict_get l var); [reflexivity | now apply dict_get_set_other].
Qed.

Lemma fold_residual_keys (g : symbol -> V -> M V)
    (l : list (symbol * ufunc)) (acc : dict (V -> M V)) :
  NoDup (keys acc ++ keys l) ->
  keys (fold_left (fun residual_funcs item =>
                     dict_set residual_funcs (fst item) (g (fst item))) l acc)
  = keys acc ++ keys l.
Proof.
  revert acc. induction l as [| [k0 b0] l IH]; intros acc Hnd; simpl.
  - now rewrite app_nil_r.
  - assert (Hfresh : ~ In k0 (keys acc)).
    { simpl in Hnd. apply NoDup_remove_2 in Hnd.
      intros I. apply Hnd. apply in_or_app. now left. }
    rewrite (dict_set_fresh acc k0 _ Hfresh), IH.
    + rewrite keys_app. simpl. now rewrite <- app_assoc.
    + rewrite keys_app. simpl. now rewrite <- app_assoc.
Qed.

(** The dict of residual functions has an entry exactly for the variables
    that have a basis derivative, whatever the basis functions or the model
    hold, and the entry of a variable is the residual function of that
    variable over the whole two dicts; on a dict of derivatives the keys come
    in the same order. *)
Theorem construct_residual_funcs_lookup (basis_derivs basis_funcs : dict ufunc)
    (var : symbol) :
  dict_get (_construct_residual_funcs basis_derivs basis_funcs) var
  = option_map
      (fun _ => _residual_function_factory var basis_derivs basis_funcs)
      (dict_get basis_derivs var)
  /\ (wf_dict basis_derivs ->
      keys (_construct_residual_funcs basis_derivs basis_funcs)
      = keys basis_derivs).
Proof.
  unfold _construct_residual_funcs, items. split.
  - rewrite (fold_residual_lookup
               (fun k => _residual_function_factory k basis_derivs basis_funcs)).
    now destruct (dict_get basis_derivs var).
  - intros Hwf.
    now rewrite (fold_residual_keys
                   (fun k =>
                      _residual_function_factory k basis_derivs basis_funcs)).
Qed.

Lemma eval_funcs_succeeds (vars : list symbol) (basis_funcs : dict ufunc)
    (t : V) :
  (exists vals, eval_funcs vars basis_funcs t = Ok vals)
  <-> Forall
        (fun var =>
           exists b y, dict_get basis_funcs var = Some b /\ b t = Ok y)
        vars.
Proof.
  induction vars as [| var vars IH]; simpl.
  - split; [constructor | now exists []].
  - unfold dict_getitem. split.
    + intros [vals H].
      destruct (dict_get basis_funcs var) as [b |] eqn:Eb; simpl in H;
        [| discriminate].
      destruct (b t) as [y |] eqn:Ey; simpl in H; [| discriminate].
      destruct (eval_funcs vars basis_funcs t) as [ys |] eqn:Eys; simpl in H;
        [| discriminate].
      constructor; [now exists b, y | apply IH; now exists ys].
    + intros H. inversion H as [| ? ? [b [y [Eb Ey]]] Hrest]; subst.
      apply IH in Hrest. destruct Hrest as [ys Eys].
      rewrite Eb. simpl. rewrite Ey. simpl. rewrite Eys. simpl.
      now exists (y :: ys).
Qed.

(** [_evaluate_basis_funcs] returns exactly when every dependent variable of
    the model has a basis function and that function returns at the points;
    it then gives one value per dependent variable, in the model's order, and
    looks at no other entry of the dict.  A dependent variable without an
    entry makes it fail. *)
Theorem evaluate_basis_funcs_succeeds (s : Solver) (basis_funcs : dict ufunc)
    (t : V) :
  ((exists vals, _evaluate_basis_funcs s basis_funcs t = Ok vals)
   <-> Forall
         (fun var =>
            exists b y, dict_get basis_funcs var = Some b /\ b t = Ok y)
         (dependent_vars (model s)))
  /\ (forall vals,
        _evaluate_basis_funcs s basis_funcs t = Ok vals ->
        length vals = length (dependent_vars (model s)))
  /\ (forall var,
        In var (dependent_vars (model s)) ->
        dict_get basis_funcs var = None ->
        exists e, _evaluate_basis_funcs s basis_funcs t = Raise e).
Proof.
  unfold _evaluate_basis_funcs. split; [apply eval_funcs_succeeds | split].
  - intros vals H. symmetry.
    eapply Forall2_same_length. eapply eval_funcs_values. exact H.
  - intros var I Hnone.
    destruct (eval_funcs (dependent_vars (model s)) basis_funcs t)
      as [vals | e] eqn:E; [| now exists e].
    exfalso.
    assert (H : exists vals,
               eval_funcs (dependent_vars (model s)) basis_funcs t = Ok vals)
      by now exists vals.
    apply eval_funcs_succeeds in H. rewrite Forall_forall in H.
    destruct (H var I) as [b [y [Hb _]]]. congruence.
Qed.

End Construct.

(** ** The properties of a solved instance *)

Section Solved.

Context {N : Numerics}.

(** Once a result is stored and a subclass has set degrees, kind and domain,
    with a result vector of the size the degrees ask for and factories that
    return, [coefficients], [functions], [derivatives] and
    [residual_functions] all return dicts with exactly the variables of the
    degrees mapping, in its order, and the residual function of a variable is
    the one made from the dicts of derivatives and functions. *)
Theorem solved_outputs_keyed_by_degrees {B : BasisFamily} (s : Solver)
    (r : Result) (dg : dict Z) (k : string) (dom : V * V) :
  _result s = Some r ->
  degrees s = Some dg ->
  kind s = Some k ->
  domain s = Some dom ->
  wf_dict dg ->
  Z.of_nat (length (Result_x r)) = expected_size dg ->
  (forall coef, exists f, _basis_function_factory coef k dom = Ok f) ->
  (forall coef, exists f, _basis_derivative_factory coef k dom = Ok f) ->
  exists cs fs ds rs,
    coefficients s = Ok cs
    /\ functions s = Ok fs
    /\ derivatives s = Ok ds
    /\ residual_functions s = Ok rs
    /\ keys cs = keys dg
    /\ keys fs = keys dg
    /\ keys ds = keys dg
    /\ keys rs = keys dg
    /\ (forall var f,
          dict_get rs var = Some f ->
          f = _residual_function_factory var ds fs).
Proof.
  intros Hr Hdg Hk Hdom Hwf Hsize Hf Hd.
  assert (Hc : coefficients s = Ok (chunks dg (Result_x r))).
  { unfold coefficients, result. rewrite Hr, Hdg. simpl.
    rewrite coefs_array_to_dict_chunks by exact Hwf.
    now rewrite Hsize, Z.eqb_refl. }
  assert (Hwfc : wf_dict (chunks dg (Result_x r)))
    by (unfold wf_dict; now rewrite keys_chunks).
  assert (Bf : basis_built _basis_function_factory (chunks dg (Result_x r))
                 k dom (_construct_basis_funcs (chunks dg (Result_x r)) k dom))
    by now apply construct_basis_built.
  assert (Bd : basis_built _basis_derivative_factory (chunks dg (Result_x r))
                 k dom (_construct_basis_derivs (chunks dg (Result_x r)) k dom))
    by now apply construct_basis_built.
  unfold basis_built in Bf, Bd.
  destruct (_construct_basis_funcs (chunks dg (Result_x r)) k dom)
    as [fs | e] eqn:Efs.
  2:{ destruct Bf as [var [coef [_ H]]]. destruct (Hf coef) as [f H'].
      congruence. }
  destruct (_construct_basis_derivs (chunks dg (Result_x r)) k dom)
    as [ds | e] eqn:Eds.
  2:{ destruct Bd as [var [coef [_ H]]]. destruct (Hd coef) as [f H'].
      congruence. }
  destruct Bf as [Kf _]. destruct Bd as [Kd _].
  rewrite keys_chunks in Kf, Kd.
  assert (Hwfd : wf_dict ds) by (unfold wf_dict; now rewrite Kd).
  exists (chunks dg (Result_x r)), fs, ds, (_construct_residual_funcs ds fs).
  assert (Hfun : functions s = Ok fs)
    by (unfold functions; rewrite Hc, Hk, Hdom; simpl; exact Efs).
  assert (Hder : derivatives s = Ok ds)
    by (unfold derivatives; rewrite Hc, Hk, Hdom; simpl; exact Eds).
  split; [exact Hc |]. split; [exact Hfun |]. split; [exact Hder |].
  split; [unfold residual_functions; now rewrite Hder, Hfun |].
  split; [apply keys_chunks |]. split; [exact Kf |]. split; [exact Kd |].
  split.
  - unfold _construct_residual_funcs, items.
    now rewrite (fold_residual_keys
                   (fun v => _residual_function_factory v ds fs)).
  - intros var f. apply construct_residual_funcs_entry.
Qed.

(** The base class is abstract: with a non-empty coefficient mapping and
    kind and domain set, [functions], [derivatives] and [residual_functions]
    raise [NotImplementedError]; only an empty mapping gets through, with
    empty dicts. *)
Theorem base_class_is_abstract (s : Solver) (coefs : dict (list V))
    (k : string) (dom : V * V) :
  coefficients s = Ok coefs ->
  kind s = Some k ->
  domain s = Some dom ->
  (coefs <> [] ->
   functions (B := base_class) s = Raise NotImplementedError
   /\ derivatives (B := base_class) s = Raise NotImplementedError
   /\ residual_functions (B := base_class) s = Raise NotImplementedError)
  /\ (coefs = [] ->
      functions (B := base_class) s = Ok []
      /\ derivatives (B := base_class) s = Ok []
      /\ residual_functions (B := base_class) s = Ok []).
Proof.
  intros Hc Hk Hdom.
  unfold residual_functions, functions, derivatives.
  rewrite Hc, Hk, Hdom. simpl.
  unfold _construct_basis_funcs, _construct_basis_derivs, items.
  split.
  - intros Hne. destruct coefs as [| [var coef] coefs]; [congruence |].
    simpl. repeat split.
  - intros ->. simpl. repeat split.
Qed.

End Solved.

(** ** Evaluating the interior residuals *)

Section InteriorResiduals.

Context {N : Numerics}.
Local Open Scope M_scope.

Lemma keeps_ret {A} (a : A) : keeps (ret a).
Proof. intros st. now split. Qed.

Lemma keeps_lift {A} (r : res A) : keeps (lift r).
Proof. intros st. now split. Qed.

Lemma keeps_get_self : keeps get_self.
Proof. intros st. now split. Qed.

Lemma keeps_bind {A C} (m : M A) (k : A -> M C) :
  keeps m -> (forall a, keeps (k a)) -> keeps (bind m k).
Proof.
  intros Hm Hk st. unfold bind. destruct (Hm st) as [Hs Hc].
  destruct (m st) as [[a | e] st']; simpl in *; [| now split].
  destruct (Hk a st') as [Hs' Hc']. split; [congruence | auto].
Qed.

Lemma keeps_rhs_functions (var : symbol) : keeps (_rhs_functions var).
Proof.
  intros [s cache calls]. fold (on_instance s cache calls).
  destruct (dict_get cache var) as [f |] eqn:Ec.
  - rewrite (rhs_functions_hit s cache calls var f Ec). now split.
  - destruct (dict_get (rhs (model s)) var) as [eqn |] eqn:Er.
    + rewrite (rhs_functions_miss s cache calls var eqn Ec Er).
      split; [reflexivity |]. intros v f Hv. simpl in *.
      destruct (String.eqb_spec v var) as [-> | Hne]; [congruence |].
      now rewrite dict_get_set_other.
    + rewrite (rhs_functions_unknown s cache calls var Ec Er). now split.
Qed.

Lemma keeps_residual_function (var : symbol)
    (basis_derivs basis_funcs : dict ufunc) (t : V) :
  keeps (_residual_function_factory var basis_derivs basis_funcs t).
Proof.
  unfold _residual_function_factory.
  apply keeps_bind; [apply keeps_get_self | intros s].
  apply keeps_bind; [apply keeps_lift | intros vals].
  apply keeps_bind; [apply keeps_lift | intros deriv].
  apply keeps_bind; [apply keeps_lift | intros d].
  apply keeps_bind; [apply keeps_rhs_functions | intros f].
  apply keeps_bind; [apply keeps_lift | intros y; apply keeps_lift].
Qed.

Lemma keeps_lift_bind {A C} (r : res A) (k : A -> M C) :
  (forall a, r = Ok a -> keeps (k a)) -> keeps (bind (lift r) k).
Proof.
  intros Hk st. unfold bind, lift.
  destruct r as [a | e]; [now apply (Hk a) | now split].
Qed.

Lemma keeps_eval_residual_funcs (vars : list symbol)
    (basis_derivs basis_funcs : dict ufunc) (nodes : dict V) :
  keeps (eval_residual_funcs vars
           (_construct_residual_funcs basis_derivs basis_funcs) nodes).
Proof.
  induction vars as [| var vars IH]; simpl; [apply keeps_ret |].
  apply keeps_lift_bind. intros f Hf. unfold dict_getitem in Hf.
  destruct (dict_get (_construct_residual_funcs basis_derivs basis_funcs) var)
    as [g |] eqn:E; [| discriminate].
  injection Hf as ->. apply construct_residual_funcs_entry in E. subst f.
  apply keeps_bind; [apply keeps_lift | intros t].
  apply keeps_bind; [apply keeps_residual_function | intros y].
  apply keeps_bind; [exact IH | intros ys; apply keeps_ret].
Qed.

(** A list of residuals comes back only if every variable has a residual
    function and a node, and holds one residual per variable. *)
Lemma eval_residual_funcs_success (vars : list symbol)
    (residual_funcs : dict (V -> M V)) (nodes : dict V) (st st' : State)
    (ys : list V) :
  eval_residual_funcs vars residual_funcs nodes st = (Ok ys, st') ->
  length ys = length vars
  /\ forall var,
       In var vars ->
       dict_get residual_funcs var <> None /\ dict_get nodes var <> None.
Proof.
  revert st st' ys.
  induction vars as [| var vars IH]; intros st st' ys H; simpl in H.
  - unfold ret in H. injection H as <- _. split; [reflexivity | contradiction].
  - unfold bind at 1, lift at 1, dict_getitem at 1 in H.
    destruct (dict_get residual_funcs var) as [f |] eqn:Ef; [| discriminate].
    unfold bind at 1, lift at 1, dict_getitem at 1 in H.
    destruct (dict_get nodes var) as [t |] eqn:Et; [| discriminate].
    unfold bind at 1 in H.
    destruct (f t st) as [[y | e] st1]; [| discriminate].
    unfold bind at 1 in H.
    destruct (eval_residual_funcs vars residual_funcs nodes st1)
      as [[ys' | e] st2] eqn:Erest; [| discriminate].
    unfold ret in H. injection H as <- _.
    destruct (IH st1 st2 ys' Erest) as [Hlen Hall].
    split; [simpl; now rewrite Hlen |].
    intros v [<- | I]; [split; congruence | now apply Hall].
Qed.

(** Evaluating the residual functions made from dicts of derivatives and
    basis functions at the collocation nodes never changes the instance and
    never removes or replaces an entry of the shared cache.  It returns only
    if every dependent variable of the model has a basis derivative and a
    node, and then gives one residual per dependent variable. *)
Theorem evaluate_residual_funcs_keeps (basis_derivs basis_funcs : dict ufunc)
    (nodes : dict V) (st : State) :
  let out :=
    _evaluate_residual_funcs
      (_construct_residual_funcs basis_derivs basis_funcs) nodes st in
  self (snd out) = self st
  /\ (forall var f,
        dict_get (_cached_rhs_functions st) var = Some f ->
        dict_get (_cached_rhs_functions (snd out)) var = Some f)
  /\ (forall ys,
        fst out = Ok ys ->
        length ys = length (dependent_vars (model (self st)))
        /\ forall var,
             In var (dependent_vars (model (self st))) ->
             dict_get basis_derivs var <> None
             /\ dict_get nodes var <> None).
Proof.
  intros out. subst out.
  change (_evaluate_residual_funcs
            (_construct_residual_funcs basis_derivs basis_funcs) nodes st)
    with (eval_residual_funcs (dependent_vars (model (self st)))
            (_construct_residual_funcs basis_derivs basis_funcs) nodes st).
  destruct (keeps_eval_residual_funcs (dependent_vars (model (self st)))
              basis_derivs basis_funcs nodes st) as [Hs Hc].
  split; [exact Hs | split; [exact Hc |]].
  intros ys Hys.
  destruct (eval_residual_funcs (dependent_vars (model (self st)))
              (_construct_residual_funcs basis_derivs basis_funcs) nodes st)
    as [r st'] eqn:E.
  simpl in Hys. subst r.
  destruct (eval_residual_funcs_success _ _ _ _ _ _ E) as [Hlen Hall].
  split; [exact Hlen |].
  intros var I. destruct (Hall var I) as [Hrf Hn]. split; [| exact Hn].
  intros Hnone. apply Hrf.
  unfold _construct_residual_funcs, items.
  rewrite (fold_residual_lookup
             (fun k => _residual_function_factory k basis_derivs basis_funcs)).
  now rewrite Hnone.
Qed.

End InteriorResiduals.

(** ** The further properties on the integer backend *)

Lemma heat_degrees_nonneg :
  forall var degree, In (var, degree) heat_degrees -> 0 <= degree.
Proof.
  intros var degree [E | [E | []]]; injection E as _ <-; lia.
Qed.

Lemma coefs_dict_to_array_outcome_witness :
  _coefs_dict_to_array [] heat_coefs = Raise ValueError
  /\ _coefs_dict_to_array ["T1"; "T3"] heat_coefs = Raise KeyError.
Proof.
  split.
  - apply (coefs_dict_to_array_outcome [] heat_coefs). reflexivity.
  - apply (coefs_dict_to_array_outcome ["T1"; "T3"] heat_coefs).
    exists "T3". split; [simpl; tauto | reflexivity].
Defined.

Lemma coefs_array_to_dict_partition_witness :
  concat (values heat_coefs) = heat_initial.
Proof.
  apply (coefs_array_to_dict_partition heat_initial heat_degrees heat_coefs).
  - apply distinct_NoDup. reflexivity.
  - reflexivity.
  - exact heat_degrees_nonneg.
Defined.

Lemma array_roundtrip_witness :
  _coefs_dict_to_array (dependent_vars heat_model) heat_coefs = Ok heat_initial.
Proof.
  apply (array_roundtrip heat_initial heat_degrees heat_coefs
           (dependent_vars heat_model)).
  - apply distinct_NoDup. reflexivity.
  - exact heat_degrees_nonneg.
  - reflexivity.
  - discriminate.
  - reflexivity.
Defined.

Lemma heat_params_same_dict : dict_equal heat_params heat_params_reordered.
Proof.
  intros k. unfold heat_params, heat_params_reordered, dict_get.
  destruct (String.eqb_spec k "U") as [-> | HU]; [reflexivity |].
  destruct (String.eqb_spec k "T10") as [-> | H10]; [reflexivity |].
  destruct (String.eqb_spec k "T2Ahx"); reflexivity.
Qed.

Lemma order_params_canonical_witness :
  _order_params heat_params = _order_params heat_params_reordered.
Proof.
  apply (order_params_canonical heat_params heat_params_reordered).
  - apply distinct_NoDup. reflexivity.
  - apply distinct_NoDup. reflexivity.
  - exact heat_params_same_dict.
Defined.

Lemma init_symbolic_args_witness :
  exists s,
    __init__ (PyModel heat_model) heat_params_dict = Ok s
    /\ _symbolic_args s = ["A"; "T1"; "T2"; "T10"; "T2Ahx"; "U"].
Proof.
  destruct (init_symbolic_args (N := Z_numerics) heat_model heat_params)
    as [s [Hinit [_ [_ [_ [Hargs _]]]]]].
  - apply distinct_NoDup. reflexivity.
  - exists s. split; [exact Hinit | exact Hargs].
Defined.

Lemma lower_callable_outlives_model_witness :
  fst (_lower_boundary_condition
         (snd (model_setter (PyModel cooled_model)
                 (snd (_lower_boundary_condition (fresh heat_solver))))))
  = Ok (Some (@lambdify Z_numerics (_symbolic_args heat_solver)
                (Sub (Sym "T1") (Sym "T10")))).
Proof.
  destruct (lower_callable_outlives_model (N := Z_numerics) heat_solver [] []
              cooled_model (Sub (Sym "T1") (Sym "T10")) eq_refl)
    as [_ [_ [_ E]]].
  unfold fresh. rewrite E. reflexivity.
Defined.

Lemma construct_basis_keyed_by_coefs_witness :
  basis_built _basis_function_factory heat_coefs "Polynomial" (Num 0, Num 5)
    (_construct_basis_funcs (B := Z_monomials) heat_coefs "Polynomial"
       (Num 0, Num 5))
  /\ basis_built _basis_derivative_factory heat_coefs "Polynomial"
       (Num 0, Num 5)
       (_construct_basis_derivs (B := Z_monomials) heat_coefs "Polynomial"
          (Num 0, Num 5)).
Proof.
  apply (construct_basis_keyed_by_coefs (N := Z_numerics) (B := Z_monomials)
           heat_coefs "Polynomial" (Num 0, Num 5)).
  apply distinct_NoDup. reflexivity.
Defined.

Lemma solved_outputs_witness :
  exists cs fs ds rs,
    coefficients solved_solver = Ok cs
    /\ functions (B := Z_monomials) solved_solver = Ok fs
    /\ derivatives (B := Z_monomials) solved_solver = Ok ds
    /\ residual_functions (B := Z_monomials) solved_solver = Ok rs
    /\ keys cs = keys heat_degrees
    /\ keys fs = keys heat_degrees
    /\ keys ds = keys heat_degrees
    /\ keys rs = keys heat_degrees
    /\ (forall var f,
          dict_get rs var = Some f ->
          f = _residual_function_factory var ds fs).
Proof.
  apply (solved_outputs_keyed_by_degrees (N := Z_numerics) (B := Z_monomials)
           solved_solver heat_result heat_degrees "Polynomial" (Num 0, Num 5)).
  - reflexivity.
  - reflexivity.
  - reflexivity.
  - reflexivity.
  - apply distinct_NoDup. reflexivity.
  - reflexivity.
  - intros coef. eexists. reflexivity.
  - intros coef. eexists. reflexivity.
Defined.

Lemma base_class_is_abstract_witness :
  functions (B := base_class) solved_solver = Raise NotImplementedError
  /\ derivatives (B := base_class) solved_solver = Raise NotImplementedError
  /\ residual_functions (B := base_class) solved_solver
     = Raise NotImplementedError.
Proof.
  apply (base_class_is_abstract (N := Z_numerics) solved_solver heat_coefs
           "Polynomial" (Num 0, Num 5) eq_refl eq_refl eq_refl).
  discriminate.
Defined.

(** * Determinism of a solve *)

(** ** The callables in effect *)

Section CallablesInEffect.

Context {N : Numerics}.
Implicit Types (s : Solver) (st : State) (cache : dict callable).

Lemma same_instance_view_refl s : same_instance_view s s.
Proof. repeat split. Qed.

Lemma same_instance_view_sym s1 s2 :
  same_instance_view s1 s2 -> same_instance_view s2 s1.
Proof. intros [Hm [Hp [Hl Hu]]]. repeat split; now symmetry. Qed.

Lemma same_instance_view_trans s1 s2 s3 :
  same_instance_view s1 s2 -> same_instance_view s2 s3 ->
  same_instance_view s1 s3.
Proof.
  intros [Hm [Hp [Hl Hu]]] [Hm' [Hp' [Hl' Hu']]].
  repeat split; congruence.
Qed.

Lemma rhs_in_effect_view s1 s2 cache var :
  same_instance_view s1 s2 ->
  rhs_in_effect s1 cache var = rhs_in_effect s2 cache var.
Proof.
  intros [Hm [Hp _]].
  unfold rhs_in_effect, _symbolic_args, _symbolic_vars, _symbolic_params.
  now rewrite Hm, Hp.
Qed.

Lemma same_callables_refl st : same_callables st st.
Proof. split; [apply same_instance_view_refl | reflexivity]. Qed.

Lemma same_callables_sym st1 st2 :
  same_callables st1 st2 -> same_callables st2 st1.
Proof.
  intros [Hv Hc]. split; [now apply same_instance_view_sym |].
  intros var I. symmetry. apply Hc. destruct Hv as [Hm _]. now rewrite Hm.
Qed.

Lemma same_callables_trans st1 st2 st3 :
  same_callables st1 st2 -> same_callables st2 st3 -> same_callables st1 st3.
Proof.
  intros [Hv Hc] [Hv' Hc']. split; [eapply same_instance_view_trans; eauto |].
  intros var I. rewrite (Hc var I). apply Hc'.
  destruct Hv as [Hm _]. now rewrite <- Hm.
Qed.

(** A state whose instance has only changed in ways the view does not see,
    over the same cache. *)
Lemma same_callables_instance s s' cache calls calls' :
  same_instance_view s s' ->
  same_callables (on_instance s cache calls) (on_instance s' cache calls').
Proof.
  intros Hv. split; [exact Hv |]. intros var _. simpl.
  now apply rhs_in_effect_view.
Qed.

Ltac view_cases s :=
  destruct s as [m p lo up r dg k dm];
  unfold same_instance_view, lower_in_effect, upper_in_effect, memoize_lower,
    memoize_upper, boundary_callable, set_result, model, params;
  cbn;
  destruct (lower (boundary_conditions m)) eqn:El,
    (upper (boundary_conditions m)) eqn:Eu, lo, up;
  cbn; rewrite ?El, ?Eu; cbn; rewrite ?El, ?Eu; repeat split.

Lemma view_memoize_lower s : same_instance_view s (memoize_lower s).
Proof. view_cases s. Qed.

Lemma view_memoize_upper s : same_instance_view s (memoize_upper s).
Proof. view_cases s. Qed.

Lemma view_set_result s r0 : same_instance_view s (set_result s r0).
Proof. view_cases s. Qed.

Lemma view_settled s : same_instance_view s (memoize_upper (memoize_lower s)).
Proof.
  eapply same_instance_view_trans;
    [apply view_memoize_lower | apply view_memoize_upper].
Qed.

Lemma lower_outcome_view s1 s2 (basis_funcs : dict ufunc) (x : V) :
  same_instance_view s1 s2 ->
  lower_outcome s1 basis_funcs x = lower_outcome s2 basis_funcs x.
Proof.
  intros [Hm [Hp [Hl _]]].
  unfold lower_outcome, lower_in_effect, _evaluate_basis_funcs in *.
  rewrite Hm in *.
  destruct (lower (boundary_conditions (model s2))) as [c |];
    [| reflexivity].
  simpl in Hl. injection Hl as Hl. now rewrite Hp, Hl.
Qed.

Lemma upper_outcome_view s1 s2 (basis_funcs : dict ufunc) (x : V) :
  same_instance_view s1 s2 ->
  upper_outcome s1 basis_funcs x = upper_outcome s2 basis_funcs x.
Proof.
  intros [Hm [Hp [_ Hu]]].
  unfold upper_outcome, upper_in_effect, _evaluate_basis_funcs in *.
  rewrite Hm in *.
  destruct (upper (boundary_conditions (model s2))) as [c |];
    [| reflexivity].
  simpl in Hu. injection Hu as Hu. now rewrite Hp, Hu.
Qed.

(** What [_rhs_functions] hands out is the callable in effect for the name,
    and the request leaves every callable in effect as it was. *)
Lemma rhs_functions_in_effect var st :
  fst (_rhs_functions var st)
  = match rhs_in_effect (self st) (_cached_rhs_functions st) var with
    | Some f => Ok f
    | None => Raise KeyError
    end
  /\ self (snd (_rhs_functions var st)) = self st
  /\ forall v,
       rhs_in_effect (self st)
         (_cached_rhs_functions (snd (_rhs_functions var st))) v
       = rhs_in_effect (self st) (_cached_rhs_functions st) v.
Proof.
  destruct st as [s cache calls]. cbn [self _cached_rhs_functions].
  fold (on_instance s cache calls). unfold rhs_in_effect.
  destruct (dict_get cache var) as [f |] eqn:Ec.
  - rewrite (rhs_functions_hit s cache calls var f Ec). now repeat split.
  - destruct (dict_get (rhs (model s)) var) as [eqn |] eqn:Er.
    + rewrite (rhs_functions_miss s cache calls var eqn Ec Er). simpl.
      repeat split. intros v.
      destruct (String.eqb_spec v var) as [-> | Hne].
      * now rewrite dict_get_set_same, Ec, Er.
      * now rewrite dict_get_set_other.
    + rewrite (rhs_functions_unknown s cache calls var Ec Er).
      now repeat split.
Qed.

End CallablesInEffect.

(** ** Computations that leave the callables in effect *)

Section Settles.

Context {N : Numerics} {B : BasisFamily}.
Local Open Scope M_scope.

Lemma settles_ret {A} (a : A) : settles (ret a).
Proof. intros st. apply same_callables_refl. Qed.

Lemma settles_lift {A} (r : res A) : settles (lift r).
Proof. intros st. apply same_callables_refl. Qed.

Lemma settles_get_self : settles get_self.
Proof. intros st. apply same_callables_refl. Qed.

Lemma settles_bind {A C} (m : M A) (k : A -> M C) :
  settles m -> (forall a, settles (k a)) -> settles (bind m k).
Proof.
  intros Hm Hk st. unfold bind. pose proof (Hm st) as H.
  destruct (m st) as [[a | e] st']; simpl in *; [| exact H].
  eapply same_callables_trans; [exact H | apply Hk].
Qed.

Lemma settles_lift_bind {A C} (r : res A) (k : A -> M C) :
  (forall a, r = Ok a -> settles (k a)) -> settles (bind (lift r) k).
Proof.
  intros Hk st. unfold bind, lift.
  destruct r as [a | e]; [now apply (Hk a) | apply same_callables_refl].
Qed.

Lemma settles_rhs_functions (var : symbol) : settles (_rhs_functions var).
Proof.
  intros st. destruct (rhs_functions_in_effect var st) as [_ [Hs Hc]].
  split; [rewrite Hs; apply same_instance_view_refl |].
  intros v _. rewrite Hs. symmetry. apply Hc.
Qed.

Lemma settles_residual_function (var : symbol)
    (basis_derivs basis_funcs : dict ufunc) (t : V) :
  settles (_residual_function_factory var basis_derivs basis_funcs t).
Proof.
  unfold _residual_function_factory.
  apply settles_bind; [apply settles_get_self | intros s].
  apply settles_bind; [apply settles_lift | intros vals].
  apply settles_bind; [apply settles_lift | intros deriv].
  apply settles_bind; [apply settles_lift | intros d].
  apply settles_bind; [apply settles_rhs_functions | intros f].
  apply settles_bind; [apply settles_lift | intros y; apply settles_lift].
Qed.

Lemma settles_eval_residual_funcs (vars : list symbol)
    (basis_derivs basis_funcs : dict ufunc) (nodes : dict V) :
  settles (eval_residual_funcs vars
             (_construct_residual_funcs basis_derivs basis_funcs) nodes).
Proof.
  induction vars as [| var vars IH]; simpl; [apply settles_ret |].
  apply settles_lift_bind. intros f Hf. unfold dict_getitem in Hf.
  destruct (dict_get (_construct_residual_funcs basis_derivs basis_funcs) var)
    as [g |] eqn:E; [| discriminate].
  injection Hf as ->. apply construct_residual_funcs_entry in E. subst f.
  apply settles_bind; [apply settles_lift | intros t].
  apply settles_bind; [apply settles_residual_function | intros y].
  apply settles_bind; [exact IH | intros ys; apply settles_ret].
Qed.

Lemma settles_evaluate_residual_funcs (basis_derivs basis_funcs : dict ufunc)
    (nodes : dict V) :
  settles (_evaluate_residual_funcs
             (_construct_residual_funcs basis_derivs basis_funcs) nodes).
Proof.
  unfold _evaluate_residual_funcs.
  apply settles_bind; [apply settles_get_self | intros s].
  apply settles_eval_residual_funcs.
Qed.

Lemma settles_boundary_residuals (basis_funcs : dict ufunc) (dom : V * V) :
  settles (_evaluate_boundary_residuals basis_funcs dom).
Proof.
  intros [s cache calls]. fold (on_instance s cache calls).
  rewrite boundary_residuals_run.
  destruct (lower_outcome s basis_funcs (fst dom)); cbn [snd];
    apply same_callables_instance;
    [apply view_settled | apply view_memoize_lower].
Qed.

Lemma settles_residual_vector (k : string) (dom : V * V) (dg : dict Z)
    (nodes : dict V) (coefs_array : list V) :
  settles (residual_vector k dom dg nodes coefs_array).
Proof.
  unfold residual_vector.
  apply settles_bind; [apply settles_lift | intros coefs].
  apply settles_bind; [apply settles_lift | intros basis_derivs].
  apply settles_bind; [apply settles_lift | intros basis_funcs].
  apply settles_bind; [apply settles_evaluate_residual_funcs | intros interior].
  apply settles_bind; [apply settles_boundary_residuals |].
  intros boundary. apply settles_ret.
Qed.

Lemma settles_run_strategy (residual : list V -> M (list V))
    (strategy : Strategy) :
  (forall x, settles (residual x)) -> settles (run_strategy residual strategy).
Proof.
  intros Hres. induction strategy as [x success | x k IH]; simpl.
  - apply settles_ret.
  - apply settles_bind; [apply Hres | intros r; apply IH].
Qed.

(** Storing the result on the instance. *)
Lemma settles_store_result (r : Result) :
  settles (s <- get_self ;; set_self (set_result s r) ;;; ret r).
Proof.
  intros [s cache calls]. unfold bind, get_self, set_self, ret. cbn.
  apply (same_callables_instance s (set_result s r) cache calls calls).
  apply view_set_result.
Qed.

Lemma settles_solve (external : list V -> Strategy) (k : string)
    (dom : V * V) (dg : dict Z) (nodes : dict V) (initial_coefs : list V) :
  settles (solve external k dom dg nodes initial_coefs).
Proof.
  unfold solve. apply settles_bind.
  - apply settles_run_strategy. intros x. apply settles_residual_vector.
  - intros r. apply settles_store_result.
Qed.

End Settles.

(** ** Computations whose outcome the callables in effect decide *)

Section Determined.

Context {N : Numerics} {B : BasisFamily}.
Local Open Scope M_scope.

Lemma determined_ret {A} (a : A) : determined (ret a).
Proof. intros st1 st2 H. reflexivity. Qed.

Lemma determined_lift {A} (r : res A) : determined (lift r).
Proof. intros st1 st2 H. reflexivity. Qed.

(** After a computation that leaves the callables in effect, two states that
    had the same still have the same. *)
Lemma settles_both {A} (m : M A) (st1 st2 : State) :
  settles m -> same_callables st1 st2 ->
  same_callables (snd (m st1)) (snd (m st2)).
Proof.
  intros Hs H.
  eapply same_callables_trans; [apply same_callables_sym, Hs |].
  eapply same_callables_trans; [exact H | apply Hs].
Qed.

Lemma determined_bind {A C} (m : M A) (k : A -> M C) :
  settles m -> determined m -> (forall a, determined (k a)) ->
  determined (bind m k).
Proof.
  intros Hs Hm Hk st1 st2 H. unfold bind.
  pose proof (Hm st1 st2 H) as Hr.
  pose proof (settles_both m st1 st2 Hs H) as H'.
  destruct (m st1) as [[a | e] st1'], (m st2) as [[a' | e'] st2'];
    simpl in *; try discriminate.
  - injection Hr as <-. now apply Hk.
  - now injection Hr as <-.
Qed.

Lemma determined_rhs_functions_at (var : symbol) (st1 st2 : State) :
  same_callables st1 st2 ->
  In var (dependent_vars (model (self st1))) ->
  fst (_rhs_functions var st1) = fst (_rhs_functions var st2).
Proof.
  intros [_ Hc] I.
  destruct (rhs_functions_in_effect var st1) as [E1 _].
  destruct (rhs_functions_in_effect var st2) as [E2 _].
  now rewrite E1, E2, (Hc var I).
Qed.

Lemma determined_residual_function_at (var : symbol)
    (basis_derivs basis_funcs : dict ufunc) (t : V) (st1 st2 : State) :
  same_callables st1 st2 ->
  In var (dependent_vars (model (self st1))) ->
  fst (_residual_function_factory var basis_derivs basis_funcs t st1)
  = fst (_residual_function_factory var basis_derivs basis_funcs t st2).
Proof.
  intros H I.
  pose proof (determined_rhs_functions_at var st1 st2 H I) as Hrhs.
  destruct H as [[Hm [Hp _]] _].
  destruct st1 as [s1 c1 l1], st2 as [s2 c2 l2]. cbn [self] in *.
  fold (on_instance s1 c1 l1) in *. fold (on_instance s2 c2 l2) in *.
  rewrite !residual_function_run.
  unfold _evaluate_basis_funcs. rewrite Hm, Hp.
  destruct (eval_funcs (dependent_vars (model s2)) basis_funcs t);
    [| reflexivity].
  destruct (dict_getitem basis_derivs var) as [deriv |]; [| reflexivity].
  destruct (deriv t); [| reflexivity].
  destruct (_rhs_functions var (on_instance s1 c1 l1)) as [[f1 | e1] st1'],
    (_rhs_functions var (on_instance s2 c2 l2)) as [[f2 | e2] st2'];
    simpl in *; try discriminate.
  - now injection Hrhs as <-.
  - now injection Hrhs as <-.
Qed.

Lemma determined_eval_residual_funcs_at (vars : list symbol)
    (basis_derivs basis_funcs : dict ufunc) (nodes : dict V)
    (st1 st2 : State) :
  same_callables st1 st2 ->
  incl vars (dependent_vars (model (self st1))) ->
  fst (eval_residual_funcs vars
         (_construct_residual_funcs basis_derivs basis_funcs) nodes st1)
  = fst (eval_residual_funcs vars
           (_construct_residual_funcs basis_derivs basis_funcs) nodes st2).
Proof.
  revert st1 st2. induction vars as [| var vars IH]; intros st1 st2 H Hincl;
    simpl; [reflexivity |].
  unfold bind at 1 5, lift at 1 3. unfold dict_getitem at 1 3.
  destruct (dict_get (_construct_residual_funcs basis_derivs basis_funcs) var)
    as [f |] eqn:Ef; [| reflexivity].
  apply construct_residual_funcs_entry in Ef. subst f.
  unfold bind at 1 4, lift at 1 2.
  destruct (dict_getitem nodes var) as [t |]; [| reflexivity].
  assert (I : In var (dependent_vars (model (self st1))))
    by (apply Hincl; now left).
  pose proof (determined_residual_function_at var basis_derivs basis_funcs t
                st1 st2 H I) as Hf.
  pose proof (settles_both _ st1 st2
                (settles_residual_function var basis_derivs basis_funcs t) H)
    as H'.
  pose proof (settles_residual_function var basis_derivs basis_funcs t st1)
    as [[Hm1 _] _].
  unfold bind at 1 3.
  destruct (_residual_function_factory var basis_derivs basis_funcs t st1)
    as [[y1 | e1] st1'],
    (_residual_function_factory var basis_derivs basis_funcs t st2)
    as [[y2 | e2] st2']; simpl in *; try discriminate;
    [| now injection Hf as <-].
  injection Hf as <-.
  assert (Hrest : incl vars (dependent_vars (model (self st1')))).
  { rewrite <- Hm1. intros v Hv. apply Hincl. now right. }
  specialize (IH st1' st2' H' Hrest).
  unfold bind.
  destruct (eval_residual_funcs vars _ nodes st1') as [[ys1 | e1] st1''],
    (eval_residual_funcs vars _ nodes st2') as [[ys2 | e2] st2''];
    simpl in *; try discriminate; [| now injection IH as <-].
  now injection IH as <-.
Qed.

Lemma determined_evaluate_residual_funcs
    (basis_derivs basis_funcs : dict ufunc) (nodes : dict V) :
  determined (_evaluate_residual_funcs
                (_construct_residual_funcs basis_derivs basis_funcs) nodes).
Proof.
  intros st1 st2 H.
  change (fst (eval_residual_funcs (dependent_vars (model (self st1)))
                 (_construct_residual_funcs basis_derivs basis_funcs) nodes
                 st1)
          = fst (eval_residual_funcs (dependent_vars (model (self st2)))
                   (_construct_residual_funcs basis_derivs basis_funcs) nodes
                   st2)).
  destruct H as [[Hm Hv] Hc]. rewrite <- Hm.
  apply determined_eval_residual_funcs_at;
    [split; [split; assumption | assumption] | apply incl_refl].
Qed.

Lemma determined_boundary_residuals (basis_funcs : dict ufunc)
    (dom : V * V) :
  determined (_evaluate_boundary_residuals basis_funcs dom).
Proof.
  intros [s1 c1 l1] [s2 c2 l2] [Hv _]. cbn [self] in Hv.
  fold (on_instance s1 c1 l1). fold (on_instance s2 c2 l2).
  rewrite !boundary_residuals_run.
  rewrite (lower_outcome_view s1 s2 basis_funcs (fst dom) Hv).
  rewrite (upper_outcome_view s1 s2 basis_funcs (snd dom) Hv).
  destruct (lower_outcome s2 basis_funcs (fst dom)); reflexivity.
Qed.

Lemma determined_residual_vector (k : string) (dom : V * V) (dg : dict Z)
    (nodes : dict V) (coefs_array : list V) :
  determined (residual_vector k dom dg nodes coefs_array).
Proof.
  unfold residual_vector.
  apply determined_bind;
    [apply settles_lift | apply determined_lift | intros coefs].
  apply determined_bind;
    [apply settles_lift | apply determined_lift | intros basis_derivs].
  apply determined_bind;
    [apply settles_lift | apply determined_lift | intros basis_funcs].
  apply determined_bind;
    [apply settles_evaluate_residual_funcs
    | apply determined_evaluate_residual_funcs | intros interior].
  apply determined_bind;
    [apply settles_boundary_residuals | apply determined_boundary_residuals |].
  intros boundary. apply determined_ret.
Qed.

Lemma determined_run_strategy (residual : list V -> M (list V))
    (strategy : Strategy) :
  (forall x, settles (residual x)) ->
  (forall x, determined (residual x)) ->
  determined (run_strategy residual strategy).
Proof.
  intros Hs Hd. induction strategy as [x success | x k IH]; simpl.
  - apply determined_ret.
  - apply determined_bind; [apply Hs | apply Hd | intros r; apply IH].
Qed.

Lemma determined_solve (external : list V -> Strategy) (k : string)
    (dom : V * V) (dg : dict Z) (nodes : dict V) (initial_coefs : list V) :
  determined (solve external k dom dg nodes initial_coefs).
Proof.
  unfold solve. apply determined_bind.
  - apply settles_run_strategy. intros x. apply settles_residual_vector.
  - apply determined_run_strategy; intros x;
      [apply settles_residual_vector | apply determined_residual_vector].
  - intros r st1 st2 H. reflexivity.
Qed.

(** C9, as the code has it.  Two invocations of [solve] with the same
    external solver, basis kind, domain, degrees, nodes and initial
    coefficients return the same outcome whenever they meet the same model,
    the same params and the same callables in effect: for each side with a
    boundary condition the callable stored on the instance or else the
    condition compiled, and for each dependent variable the callable the
    shared cache holds or else the model's right-hand side compiled.  A solve
    leaves all of these as it found them, so invoking [solve] again on the
    instance returns the same outcome.  The external solver is run once: what
    [solve] returns is the outcome of that single run, whatever its success
    flag, and a returned Result is the one stored on the instance. *)
Theorem solve_deterministic_given_callables (external : list V -> Strategy)
    (k : string) (dom : V * V) (dg : dict Z) (nodes : dict V)
    (initial_coefs : list V) (st1 st2 : State) :
  same_callables st1 st2 ->
  let run1 := solve external k dom dg nodes initial_coefs st1 in
  let run2 := solve external k dom dg nodes initial_coefs st2 in
  let again := solve external k dom dg nodes initial_coefs (snd run1) in
  fst run1 = fst run2
  /\ same_callables (snd run1) (snd run2)
  /\ same_callables st1 (snd run1)
  /\ fst again = fst run1
  /\ fst run1
     = fst (run_strategy (residual_vector k dom dg nodes)
              (external initial_coefs) st1)
  /\ (forall x success,
        external initial_coefs = Finish x success ->
        fst run1 = Ok {| Result_x := x; Result_success := success |})
  /\ (forall r, fst run1 = Ok r -> _result (self (snd run1)) = Some r).
Proof.
  intros H run1 run2 again.
  pose proof (settles_solve external k dom dg nodes initial_coefs) as Hs.
  pose proof (determined_solve external k dom dg nodes initial_coefs) as Hd.
  split; [apply Hd; exact H |].
  split; [apply settles_both; assumption |].
  split; [apply Hs |].
  split; [symmetry; apply Hd, Hs |].
  subst run1 run2 again. unfold solve, bind.
  destruct (run_strategy (residual_vector k dom dg nodes)
              (external initial_coefs) st1) as [[r | e] st'] eqn:E; simpl.
  - split; [reflexivity | split].
    + intros x success Hx. rewrite Hx in E. simpl in E. unfold ret in E.
      now injection E as <- _.
    + now intros r' [= <-].
  - split; [reflexivity | split].
    + intros x success Hx. rewrite Hx in E. simpl in E. discriminate.
    + discriminate.
Qed.

End Determined.

Lemma solve_witness :
  fst (heat_solve (snd (heat_solve (fresh heat_solver))))
  = fst (heat_solve (fresh heat_solver))
  /\ fst (heat_solve (fresh heat_solver))
     = Ok {| Result_x := [Num 19; Num 38; Num (-30); Num 20];
             Result_success := true |}.
Proof.
  destruct (solve_deterministic_given_callables (N := Z_numerics)
              (B := Z_monomials) one_step "Polynomial" (Num 0, Num 5)
              heat_degrees heat_nodes heat_initial (fresh heat_solver)
              (snd (heat_solve (fresh heat_solver))))
    as [E _].
  - split; [repeat split |].
    intros var [<- | [<- | []]]; reflexivity.
  - split; [symmetry; exact E | reflexivity].
Defined.
